(** * webpack-subresource-integrity: the [Plugin] class

    A shallow embedding of the per-compilation [Plugin] object
    (integrity registry, chunk walk, placeholder replacement and HTML tag
    annotation) together with the properties its design description states
    about it.

    Conventions of the embedding:
    - JavaScript strings and buffers are [string]s; a [Map<string, string>]
      that is never iterated is a [gmap string string]; a [Map] or plain
      object that IS iterated ([hashByChunkId], the asset table) is an
      association list in insertion order.
    - A function that can throw returns a [result]; the fields of [this]
      that a method mutates are threaded through as a [Plugin] record.
    - Helpers imported from [./util], [path] and [fs] are not part of this
      class; they are the [Variable]s of section [PluginClass]. *)

From Stdlib Require Import String Ascii ZArith List Bool Lia.
From stdpp Require Import gmap strings list fin_maps pretty.

(** ** JavaScript values used by the class *)

(** Truthiness of a string: only the empty string is falsy. *)
Definition truthy (s : string) : bool :=
  match s with
  | EmptyString => false
  | String _ _ => true
  end.

(** Exceptions the class can let escape. *)
Inductive Exn : Type :=
| SourceError      (* [source.source()] threw *)
| AssertionError   (* [assert.isNotNull] failed *)
| FsError          (* [readFileSync] threw *)
| TypeError.       (* property write on [undefined] *)

Inductive result (A : Type) : Type :=
| Ok (a : A)
| Throw (e : Exn).
Arguments Ok {A} a.
Arguments Throw {A} e.

Definition bind {A B : Type} (r : result A) (k : A -> result B) : result B :=
  match r with
  | Ok a => k a
  | Throw e => Throw e
  end.

Notation "'let*' x ':=' r 'in' k" := (bind r (fun x => k))
  (at level 10, x pattern, r at level 100, k at level 200).

Definition of_option {A : Type} (e : Exn) (o : option A) : result A :=
  match o with
  | Some a => Ok a
  | None => Throw e
  end.

(** [string | number]: the key type of [hashByChunkId] and the non-null
    values of [Chunk.id].  Webpack's numeric ids are natural numbers in the
    safe-integer range (below 2^53), which a template literal prints in
    decimal. *)
Inductive ChunkId : Type :=
| IdStr (s : string)
| IdNum (n : N).

#[global] Instance ChunkId_eq_dec : EqDecision ChunkId.
Proof. solve_decision. Defined.

(** Template-literal conversion [`${id}`] of a [string | number | null]. *)
Definition id_to_string (id : option ChunkId) : string :=
  match id with
  | None => "null"
  | Some (IdStr s) => s
  | Some (IdNum n) => pretty n
  end.

Record Chunk : Type := {
  id : option ChunkId;
  files : list string;   (* [Set<string>] in insertion order *)
}.

Record StronglyConnectedComponent : Type := {
  nodes : list Chunk;    (* [Set<Chunk>] in insertion order *)
}.

Inductive HashLoading : Type := eager | lazy.

Record SubresourceIntegrityPluginResolvedOptions : Type := {
  hashFuncNames : list string;
  hashLoading : HashLoading;
}.

(** ** webpack-sources: [Source] and [ReplaceSource] *)

Record Replacement : Type := {
  r_start : Z;
  r_end : Z;
  r_content : string;
}.

(** A [Source] is either one handed over by the bundler (its [source()]
    gives a string or throws) or a [ReplaceSource] built by [replaceAsset]. *)
Inductive Source : Type :=
| HostSource (content : option string)
| ReplaceSource (inner : Source) (name : string) (replacements : list Replacement).

(** [String.prototype.slice(0, n)] and [slice(n)] for [0 <= n]. *)
Fixpoint str_take (n : nat) (s : string) : string :=
  match n, s with
  | S n', String c s' => String c (str_take n' s')
  | _, _ => EmptyString
  end.

Fixpoint str_drop (n : nat) (s : string) : string :=
  match n, s with
  | S n', String _ s' => str_drop n' s'
  | _, _ => s
  end.

(** [_sortReplacements]: stable sort by [start], then by [end]. *)
Definition repl_leb (a b : Replacement) : bool :=
  if (r_start a =? r_start b)%Z then (r_end a <=? r_end b)%Z
  else (r_start a <? r_start b)%Z.

Fixpoint repl_insert (a : Replacement) (l : list Replacement) : list Replacement :=
  match l with
  | [] => [a]
  | b :: l' => if repl_leb b a then b :: repl_insert a l' else a :: b :: l'
  end.

Definition sortReplacements (l : list Replacement) : list Replacement :=
  fold_left (fun acc a => repl_insert a acc) l [].

(** The loop of [ReplaceSource.prototype.source]: [pos] is the offset in the
    original text already consumed, [current] what is left of it. *)
Fixpoint applyReplacements (l : list Replacement) (pos : Z) (current : string) : string :=
  match l with
  | [] => current
  | r :: l' =>
      let start := r_start r in
      let end_ := (r_end r + 1)%Z in
      let '(pre, current1, pos1) :=
        if (pos <? start)%Z
        then (str_take (Z.to_nat (start - pos)) current,
              str_drop (Z.to_nat (start - pos)) current, start)
        else (EmptyString, current, pos) in
      let '(current2, pos2) :=
        if (pos1 <? end_)%Z
        then (str_drop (Z.to_nat (end_ - pos1)) current1, end_)
        else (current1, pos1) in
      pre +:+ r_content r +:+ applyReplacements l' pos2 current2
  end.

(** What [ReplaceSource.prototype.source] makes of the inner text: the
    text itself when there is no replacement, the result of the loop over
    the sorted replacements otherwise. *)
Definition replaced (replacements : list Replacement) (current : string) : string :=
  match replacements with
  | [] => current
  | _ => applyReplacements (sortReplacements replacements) 0 current
  end.

(** [Source.prototype.source()]; [None] when it throws. *)
Fixpoint source (s : Source) : option string :=
  match s with
  | HostSource content => content
  | ReplaceSource inner _ replacements => option_map (replaced replacements) (source inner)
  end.

(** [String.prototype.indexOf]: [None] stands for [-1]. *)
Definition indexOf (haystack needle : string) : option nat :=
  String.index 0 needle haystack.

(** ** Asset metadata *)

(** A hash field of [AssetInfo]: [string | string[] | undefined]. *)
Inductive HashField : Type :=
| HUndefined
| HString (s : string)
| HArray (l : list string).

Definition hash_truthy (h : HashField) : bool :=
  match h with
  | HUndefined => false
  | HString s => truthy s
  | HArray _ => true
  end.

Record AssetInfo : Type := {
  fullhash : HashField;
  chunkhash : HashField;
  modulehash : HashField;
  contenthash : HashField;
}.

Definition EMPTY_ASSET_INFO : AssetInfo :=
  {| fullhash := HUndefined; chunkhash := HUndefined;
     modulehash := HUndefined; contenthash := HUndefined |}.

(** [[...new Set(l)]]: drop later duplicates, keep first occurrences. *)
Fixpoint dedup_first (seen l : list string) : list string :=
  match l with
  | [] => []
  | x :: l' =>
      if bool_decide (x ∈ seen) then dedup_first seen l'
      else x :: dedup_first (x :: seen) l'
  end.

(** ** HTML tags *)

(** An attribute value: [string | boolean | null | undefined]. *)
Inductive AttrValue : Type :=
| AStr (s : string)
| ABool (b : bool)
| ANull
| AUndefined.

Record HtmlTagObject : Type := {
  tagName : string;
  attributes : option (gmap string AttrValue);  (* [None]: no attribute object *)
  voidTag : bool;
}.

(** [output.crossOriginLoading]: [false | "anonymous" | "use-credentials"],
    or left out of the configuration. *)
Inductive CrossOriginLoading : Type :=
| COUnset
| COFalse
| COAnonymous
| COUseCredentials.

(** ** The compilation and the state of one [Plugin] instance *)

(** What the class reads and writes of the [Compilation] it is given. *)
Record Compilation : Type := {
  assets : list (string * Source);            (* compilation.assets *)
  assetsInfo : gmap string AssetInfo;         (* compilation.assetsInfo *)
  chunks : list Chunk;                        (* compilation.chunks *)
  crossOriginLoading : CrossOriginLoading;    (* compiler.options.output *)
  realContentHash : bool;                     (* compiler.options.optimization *)
  outputPath : string;                        (* compiler.outputPath *)
}.

Record Plugin : Type := {
  compilation : Compilation;
  options : SubresourceIntegrityPluginResolvedOptions;
  reporter : list string;                     (* messages reported so far *)
  assetIntegrity : gmap string string;
  inverseAssetIntegrity : gmap string string;
  hwpPublicPath : option string;
  sortedSccChunks : list StronglyConnectedComponent;
  chunkManifest : list (Chunk * list Chunk);
  hashByChunkId : list (ChunkId * string);
}.

(** [new Plugin(compilation, options, reporter)]. *)
Definition newPlugin (compilation : Compilation)
    (options : SubresourceIntegrityPluginResolvedOptions)
    (reporter : list string) : Plugin :=
  {| compilation := compilation; options := options; reporter := reporter;
     assetIntegrity := ∅; inverseAssetIntegrity := ∅; hwpPublicPath := None;
     sortedSccChunks := []; chunkManifest := []; hashByChunkId := [] |}.

Definition with_registry (fwd inv : gmap string string) (p : Plugin) : Plugin :=
  {| compilation := compilation p; options := options p; reporter := reporter p;
     assetIntegrity := fwd; inverseAssetIntegrity := inv;
     hwpPublicPath := hwpPublicPath p; sortedSccChunks := sortedSccChunks p;
     chunkManifest := chunkManifest p; hashByChunkId := hashByChunkId p |}.

Definition with_compilation (c : Compilation) (p : Plugin) : Plugin :=
  {| compilation := c; options := options p; reporter := reporter p;
     assetIntegrity := assetIntegrity p;
     inverseAssetIntegrity := inverseAssetIntegrity p;
     hwpPublicPath := hwpPublicPath p; sortedSccChunks := sortedSccChunks p;
     chunkManifest := chunkManifest p; hashByChunkId := hashByChunkId p |}.

Definition with_assets (a : list (string * Source)) (p : Plugin) : Plugin :=
  let c := compilation p in
  with_compilation
    {| assets := a; assetsInfo := assetsInfo c; chunks := chunks c;
       crossOriginLoading := crossOriginLoading c;
       realContentHash := realContentHash c; outputPath := outputPath c |} p.

Definition with_assetsInfo (i : gmap string AssetInfo) (p : Plugin) : Plugin :=
  let c := compilation p in
  with_compilation
    {| assets := assets c; assetsInfo := i; chunks := chunks c;
       crossOriginLoading := crossOriginLoading c;
       realContentHash := realContentHash c; outputPath := outputPath c |} p.

Definition with_reporter (r : list string) (p : Plugin) : Plugin :=
  {| compilation := compilation p; options := options p; reporter := r;
     assetIntegrity := assetIntegrity p;
     inverseAssetIntegrity := inverseAssetIntegrity p;
     hwpPublicPath := hwpPublicPath p; sortedSccChunks := sortedSccChunks p;
     chunkManifest := chunkManifest p; hashByChunkId := hashByChunkId p |}.

Definition with_hashByChunkId (h : list (ChunkId * string)) (p : Plugin) : Plugin :=
  {| compilation := compilation p; options := options p; reporter := reporter p;
     assetIntegrity := assetIntegrity p;
     inverseAssetIntegrity := inverseAssetIntegrity p;
     hwpPublicPath := hwpPublicPath p; sortedSccChunks := sortedSccChunks p;
     chunkManifest := chunkManifest p; hashByChunkId := h |}.

Definition with_sccs (s : list StronglyConnectedComponent)
    (m : list (Chunk * list Chunk)) (p : Plugin) : Plugin :=
  {| compilation := compilation p; options := options p; reporter := reporter p;
     assetIntegrity := assetIntegrity p;
     inverseAssetIntegrity := inverseAssetIntegrity p;
     hwpPublicPath := hwpPublicPath p; sortedSccChunks := s;
     chunkManifest := m; hashByChunkId := hashByChunkId p |}.

Definition with_hwpPublicPath (pp : option string) (p : Plugin) : Plugin :=
  {| compilation := compilation p; options := options p; reporter := reporter p;
     assetIntegrity := assetIntegrity p;
     inverseAssetIntegrity := inverseAssetIntegrity p;
     hwpPublicPath := pp; sortedSccChunks := sortedSccChunks p;
     chunkManifest := chunkManifest p; hashByChunkId := hashByChunkId p |}.

(** ** Insertion-ordered tables *)

(** [table[k]] on an association list: the first binding of [k]. *)
Fixpoint alist_get {K V : Type} `{EqDecision K} (k : K) (l : list (K * V)) : option V :=
  match l with
  | [] => None
  | (k', v) :: l' => if decide (k = k') then Some v else alist_get k l'
  end.

(** [table[k] = v] / [map.set(k, v)]: an existing key keeps its place in the
    iteration order, a new key goes last. *)
Fixpoint alist_set {K V : Type} `{EqDecision K} (k : K) (v : V) (l : list (K * V)) : list (K * V) :=
  match l with
  | [] => [(k, v)]
  | (k', v') :: l' =>
      if decide (k = k') then (k, v) :: l' else (k', v') :: alist_set k v l'
  end.

(** The text stored under an asset key, when there is one and it can be read. *)
Definition content (assets : list (string * Source)) (k : string) : option string :=
  alist_get k assets ≫= source.

(** The asset table is a plain object: besides its own keys, [assets[name]]
    finds the members it inherits from [Object.prototype], which are
    functions (for [__proto__]: the prototype object), all truthy and none
    with a [source] method. *)
Definition objectPrototypeNames : list string :=
  ["constructor"; "hasOwnProperty"; "isPrototypeOf"; "propertyIsEnumerable";
   "toLocaleString"; "toString"; "valueOf"; "__proto__";
   "__defineGetter__"; "__defineSetter__"; "__lookupGetter__"; "__lookupSetter__"].

Definition inheritedName (name : string) : bool :=
  bool_decide (name ∈ objectPrototypeNames).

(** ** Methods that need no helper *)

(** Modelled from the spec: [Reporter.warnOnce]; the [Reporter] class
    ([./reporter]) is not part of this file, its messages are "deduplicated
    per distinct message text". *)
Definition warnOnce (msg : string) (p : Plugin) : Plugin :=
  if bool_decide (msg ∈ reporter p) then p
  else with_reporter (reporter p ++ [msg]) p.

Definition updateAssetIntegrity (assetKey integrity : string) (p : Plugin) : Plugin :=
  match assetIntegrity p !! assetKey with
  | Some _ => p
  | None =>
      with_registry (<[assetKey := integrity]> (assetIntegrity p))
                    (<[integrity := assetKey]> (inverseAssetIntegrity p)) p
  end.

(** [Array.prototype.forEach] with a callback that may throw. *)
Fixpoint forEach {A S : Type} (f : A -> S -> result S) (l : list A) (s : S) : result S :=
  match l with
  | [] => Ok s
  | a :: l' => let* s' := f a s in forEach f l' s'
  end.

(** [Array.prototype.map] with a callback that may throw. *)
Fixpoint mapM {A B : Type} (f : A -> result B) (l : list A) : result (list B) :=
  match l with
  | [] => Ok []
  | a :: l' => let* b := f a in let* bs := mapM f l' in Ok (b :: bs)
  end.

Definition hotUpdateWarning : string :=
  "webpack-subresource-integrity may interfere with hot reloading. " +:+
  "Consider disabling this plugin in development mode.".

Definition warnIfHotUpdate (src : string) (p : Plugin) : Plugin :=
  match indexOf src "webpackHotUpdate" with
  | Some _ => warnOnce hotUpdateWarning p
  | None => p
  end.

Definition longTermCachingWarning : string :=
  "Using [hash], [fullhash], [modulehash], or [chunkhash] is dangerous " +:+
  "with SRI. The same is true for [contenthash] when realContentHash is disabled. " +:+
  "Use [contenthash] and ensure realContentHash is enabled. See the README for " +:+
  "more information.".

Definition warnAboutLongTermCaching (assetInfo : AssetInfo) (p : Plugin) : Plugin :=
  if (hash_truthy (fullhash assetInfo) || hash_truthy (chunkhash assetInfo)
      || hash_truthy (modulehash assetInfo) || hash_truthy (contenthash assetInfo))
     && negb (hash_truthy (contenthash assetInfo) && realContentHash (compilation p))
  then warnOnce longTermCachingWarning p
  else p.

(** The [contenthash] of the object literal built in [processChunkAssets]. *)
Definition extendContenthash (ch : HashField) (integrity : string) : HashField :=
  match ch with
  | HArray l => HArray (dedup_first [] (l ++ [integrity]))
  | HString s => if truthy s then HArray [s; integrity] else HString integrity
  | HUndefined => HString integrity
  end.

(** [compilation.updateAsset(file, x => x, assetInfo => ...)] as
    [processChunkAssets] calls it: the source is kept, the asset info (the
    empty info when none is stored) is passed through the callback. *)
Definition updateAssetInfo (file integrity : string) (p : Plugin) : Plugin :=
  let assetInfo := default EMPTY_ASSET_INFO (assetsInfo (compilation p) !! file) in
  let p1 := warnAboutLongTermCaching assetInfo p in
  with_assetsInfo
    (<[file := {| fullhash := fullhash assetInfo;
                  chunkhash := chunkhash assetInfo;
                  modulehash := modulehash assetInfo;
                  contenthash := extendContenthash (contenthash assetInfo) integrity |}]>
       (assetsInfo (compilation p1))) p1.

(** [tag.attributes && hasOwnProperty.call(tag.attributes, "integrity")]. *)
Definition hasIntegrity (tag : HtmlTagObject) : bool :=
  match attributes tag with
  | Some attrs => bool_decide (is_Some (attrs !! "integrity"))
  | None => false
  end.

(** [output.crossOriginLoading || "anonymous"]. *)
Definition crossOriginValue (c : CrossOriginLoading) : string :=
  match c with
  | COUseCredentials => "use-credentials"
  | COAnonymous => "anonymous"
  | COFalse | COUnset => "anonymous"     (* [falsy || "anonymous"] *)
  end.

(** ** The class, over the helpers it imports *)

Section PluginClass.

(** [./util].  [computeIntegrity] is applied to resolved options only,
    whose algorithm names all have an implementation: it returns a string. *)
Variable computeIntegrity : list string -> string -> string.
Variable makePlaceholder : list string -> ChunkId -> string.
Variable findChunks : Chunk -> list Chunk.
Variable normalizePath : string -> string.
Variable getTagSrc : HtmlTagObject -> option string.
Variable getChunkToManifestMap :
  list Chunk -> list StronglyConnectedComponent * list (Chunk * list Chunk).
(** [path] and [fs]; [readFileSync] is [None] where it throws. *)
Variable relative : string -> string -> string.
Variable join : string -> string -> string.
Variable readFileSync : string -> option string.

Definition addMissingIntegrityHashes (assets : list (string * Source)) (p : Plugin) : Plugin :=
  fold_left
    (fun p assetKey =>
       match alist_get assetKey assets ≫= source with
       | None => p                                   (* caught: [return] *)
       | Some src =>
           updateAssetIntegrity assetKey
             (computeIntegrity (hashFuncNames (options p)) src) p
       end)
    (map fst assets) p.

(** The replacements [replaceAsset] registers on the new [ReplaceSource],
    one for each entry of [hashByChunkId] whose marker occurs in
    [oldSource], in iteration order. *)
Definition placeholderReplacements (hashFuncNames : list string)
    (hashByChunkId : list (ChunkId * string)) (oldSource : string) : list Replacement :=
  fold_left
    (fun acc idAndHash =>
       let magicMarker := makePlaceholder hashFuncNames (fst idAndHash) in
       match indexOf oldSource magicMarker with
       | Some magicMarkerPos =>
           acc ++ [{| r_start := Z.of_nat magicMarkerPos;
                      r_end := Z.of_nat magicMarkerPos
                               + Z.of_nat (String.length magicMarker) - 1;
                      r_content := snd idAndHash |}]
       | None => acc
       end)
    hashByChunkId [].

(** The text of the asset that [replaceAsset] stores, from the old one. *)
Definition substitutePlaceholders (hashFuncNames : list string)
    (hashByChunkId : list (ChunkId * string)) (oldSource : string) : string :=
  replaced (placeholderReplacements hashFuncNames hashByChunkId oldSource) oldSource.

(** No asset of the compilation has the marker of any chunk id in it. *)
Definition noPlaceholders (p : Plugin) : Prop :=
  forall k src i,
    content (assets (compilation p)) k = Some src ->
    indexOf src (makePlaceholder (hashFuncNames (options p)) i) = None.

Definition replaceAsset (hashByChunkId : list (ChunkId * string))
    (chunkFile : string) (p : Plugin) : result (Source * Plugin) :=
  let* asset := of_option TypeError (alist_get chunkFile (assets (compilation p))) in
  let* oldSource := of_option SourceError (source asset) in
  let hashFuncNames := hashFuncNames (options p) in
  let newAsset :=
    ReplaceSource asset chunkFile
      (placeholderReplacements hashFuncNames hashByChunkId oldSource) in
  Ok (newAsset, with_assets (alist_set chunkFile newAsset (assets (compilation p))) p).

Definition noAssetWarning (sourcePath : string) (assets : list (string * Source)) : string :=
  "No asset found for source path '" +:+ sourcePath +:+ "', options are " +:+
  String.concat ", " (map fst assets).

(** The body of the [files.forEach] callback of [processChunkAssets].  A
    name that is no own key of the asset table but a member of
    [Object.prototype] passes the test [if (assets[sourcePath])]; the call
    of [.source()] on it throws. *)
Definition processChunkFile (childChunk : Chunk) (sourcePath : string)
    (p : Plugin) : result Plugin :=
  match alist_get sourcePath (assets (compilation p)) with
  | Some asset =>
      let* src := of_option SourceError (source asset) in
      let p := warnIfHotUpdate src p in
      let* r := replaceAsset (hashByChunkId p) sourcePath p in
      let '(newAsset, p) := r in
      let* newSrc := of_option SourceError (source newAsset) in
      let integrity := computeIntegrity (hashFuncNames (options p)) newSrc in
      let p :=
        match id childChunk with
        | Some i => with_hashByChunkId (alist_set i integrity (hashByChunkId p)) p
        | None => p
        end in
      let p := updateAssetIntegrity sourcePath integrity p in
      Ok (updateAssetInfo sourcePath integrity p)
  | None =>
      if inheritedName sourcePath
      then Throw TypeError       (* [assets[sourcePath].source] is not a function *)
      else Ok (warnOnce (noAssetWarning sourcePath (assets (compilation p))) p)
  end.

Definition chunkFiles (childChunk : Chunk) : list string :=
  if (length (files childChunk) <=? 0)%nat
  then files childChunk ++ [id_to_string (id childChunk) +:+ ".js"]
  else files childChunk.

Definition processChunkAssets (childChunk : Chunk) (p : Plugin) : result Plugin :=
  forEach (processChunkFile childChunk) (chunkFiles childChunk) p.

Definition processChunk (chunk : Chunk) (p : Plugin) : result Plugin :=
  forEach processChunkAssets (rev (findChunks chunk)) p.

(** The chunk walk of [processAssets], before [addMissingIntegrityHashes].
    The hook passes [compilation.assets] as [assets]: one shared table. *)
Definition chunkWalk (p : Plugin) : result Plugin :=
  match hashLoading (options p) with
  | lazy =>
      forEach (fun scc p => forEach processChunkAssets (nodes scc) p)
              (sortedSccChunks p) p
  | eager => forEach processChunk (chunks (compilation p)) p
  end.

(** The chunks that [chunkWalk] hands to [processChunkAssets], in order. *)
Definition walkedChunks (p : Plugin) : list Chunk :=
  match hashLoading (options p) with
  | lazy => flat_map nodes (sortedSccChunks p)
  | eager => flat_map (fun chunk => rev (findChunks chunk)) (chunks (compilation p))
  end.

Definition processAssets (p : Plugin) : result Plugin :=
  let* p := chunkWalk p in
  Ok (addMissingIntegrityHashes (assets (compilation p)) p).

Definition hwpAssetPath (src : string) (p : Plugin) : result string :=
  let* publicPath := of_option AssertionError (hwpPublicPath p) in
  Ok (relative publicPath src).

Definition getIntegrityChecksumForAsset (assets : list (string * Source))
    (src : string) (p : Plugin) : option string :=
  match assetIntegrity p !! src with
  | Some integrity => Some integrity
  | None =>
      let normalizedSrc := normalizePath src in
      match find (fun assetKey => bool_decide (normalizePath assetKey = normalizedSrc))
                 (map fst assets) with
      | Some normalizedKey =>
          if truthy normalizedKey then assetIntegrity p !! normalizedKey else None
      | None => None
      end
  end.

(** [processTag] changes its argument in place and nothing else; the
    changed tag is the result.  The right-hand side of the first
    assignment is evaluated before the write to [tag.attributes]. *)
Definition processTag (p : Plugin) (tag : HtmlTagObject) : result HtmlTagObject :=
  if hasIntegrity tag then Ok tag
  else
    match getTagSrc tag with
    | None => Ok tag
    | Some tagSrc =>
        if negb (truthy tagSrc) then Ok tag
        else
          let* src := hwpAssetPath tagSrc p in
          let fromFile :=
            let* bytes :=
              of_option FsError (readFileSync (join (outputPath (compilation p)) src)) in
            Ok (computeIntegrity (hashFuncNames (options p)) bytes) in
          let* integrity :=
            match getIntegrityChecksumForAsset (assets (compilation p)) src p with
            | Some checksum => if truthy checksum then Ok checksum else fromFile
            | None => fromFile
            end in
          let* attrs := of_option TypeError (attributes tag) in
          Ok {| tagName := tagName tag;
                attributes :=
                  Some (<["crossorigin" := AStr (crossOriginValue (crossOriginLoading (compilation p)))]>
                          (<["integrity" := AStr integrity]> attrs));
                voidTag := voidTag tag |}
    end.

(** The two ways out of [processTag] before anything is looked up. *)
Definition skipped (tag : HtmlTagObject) : Prop :=
  hasIntegrity tag = true ∨ getTagSrc tag = None ∨ getTagSrc tag = Some "".

Definition beforeRuntimeRequirements (p : Plugin) : Plugin :=
  let p :=
    match hashLoading (options p) with
    | lazy =>
        let '(sortedSccChunks, chunkManifest) := getChunkToManifestMap (chunks (compilation p)) in
        with_sccs sortedSccChunks chunkManifest p
    | eager => p
    end in
  with_hashByChunkId [] p.

Definition updateHash (input : list string) (oldHash : string) (p : Plugin)
    : Plugin * option string :=
  match inverseAssetIntegrity p !! oldHash, input with
  | Some assetKey, [input0] =>
      if truthy assetKey then
        let newIntegrity := computeIntegrity (hashFuncNames (options p)) input0 in
        let p := with_registry (assetIntegrity p)
                               (delete oldHash (inverseAssetIntegrity p)) p in
        let p := with_registry (delete assetKey (assetIntegrity p))
                               (inverseAssetIntegrity p) p in
        (updateAssetIntegrity assetKey newIntegrity p, Some newIntegrity)
      else (p, None)
  | _, _ => (p, None)
  end.

(** The [js] and [css] lists are the two [string[]] fields that
    [assetTypeIntegrityKeys] pairs with [jsIntegrity] and [cssIntegrity];
    [notNil] keeps the entries that are not [undefined]. *)
Definition handleHwpPluginArgs (publicPath : string) (js css : list string)
    (p : Plugin) : result (Plugin * list string * list string) :=
  let p := with_hwpPublicPath (Some publicPath) p in
  let checksum filePath :=
    let* src := hwpAssetPath filePath p in
    Ok (getIntegrityChecksumForAsset (assets (compilation p)) src p) in
  let* jsIntegrity := mapM checksum js in
  let* cssIntegrity := mapM checksum css in
  Ok (p, omap (fun x => x) jsIntegrity, omap (fun x => x) cssIntegrity).

Definition handleHwpBodyTags (headTags bodyTags : list HtmlTagObject) (p : Plugin)
    : result (Plugin * list HtmlTagObject) :=
  let p := addMissingIntegrityHashes (assets (compilation p)) p in
  let* tags := mapM (processTag p) (headTags ++ bodyTags) in
  Ok (p, tags).

End PluginClass.

(** ** Sequences of registry calls *)

Inductive RegistryCall : Type :=
| CallRecord (assetKey integrity : string)          (* updateAssetIntegrity *)
| CallRehash (input : list string) (oldHash : string).  (* updateHash *)

Section RegistryCalls.

Variable computeIntegrity : list string -> string -> string.

Definition registryCall (p : Plugin) (c : RegistryCall) : Plugin :=
  match c with
  | CallRecord assetKey integrity => updateAssetIntegrity assetKey integrity p
  | CallRehash input oldHash => fst (updateHash computeIntegrity input oldHash p)
  end.

Definition registryCalls (calls : list RegistryCall) (p : Plugin) : Plugin :=
  fold_left registryCall calls p.

(** No other asset key holds digest [d] in the forward map. *)
Definition digest_unused (d : string) (fwd : gmap string string) : bool :=
  bool_decide (map_Forall (fun _ d' => d' ≠ d) fwd).

(** The call does not give an asset key a digest that another key has. *)
Definition call_fresh (p : Plugin) (c : RegistryCall) : bool :=
  match c with
  | CallRecord assetKey integrity =>
      match assetIntegrity p !! assetKey with
      | Some _ => true
      | None => digest_unused integrity (assetIntegrity p)
      end
  | CallRehash input oldHash =>
      match inverseAssetIntegrity p !! oldHash, input with
      | Some assetKey, [input0] =>
          digest_unused (computeIntegrity (hashFuncNames (options p)) input0)
                        (delete assetKey (assetIntegrity p))
      | _, _ => true
      end
  end.

Fixpoint calls_fresh (calls : list RegistryCall) (p : Plugin) : bool :=
  match calls with
  | [] => true
  | c :: calls' => call_fresh p c && calls_fresh calls' (registryCall p c)
  end.

End RegistryCalls.

(** ** A concrete build, after the scenarios of the design description *)

(** A stand-in for [computeIntegrity]: one token per algorithm name, with
    a small polynomial checksum in place of the base64 digest. *)
Fixpoint demo_checksum (src : string) (h : N) : N :=
  match src with
  | EmptyString => h
  | String c src' => demo_checksum src' ((h * 31 + N_of_ascii c) mod 4294967296)%N
  end.

Definition demo_computeIntegrity (hashFuncNames : list string) (src : string) : string :=
  String.concat " " (map (fun name => name +:+ "-" +:+ pretty (demo_checksum src 7))
                         hashFuncNames).

(** A stand-in for [makePlaceholder], after the marker of the scenarios. *)

Definition demo_makePlaceholder (hashFuncNames : list string) (i : ChunkId) : string :=
  "%%SRI0-CHUNK" +:+ id_to_string (Some i) +:+ "%%".

Definition demo_options (mode : HashLoading) : SubresourceIntegrityPluginResolvedOptions :=
  {| hashFuncNames := ["sha256"]; hashLoading := mode |}.

Definition demo_compilation (assets : list (string * Source)) (chunks : list Chunk) : Compilation :=
  {| assets := assets; assetsInfo := ∅; chunks := chunks;
     crossOriginLoading := COUnset; realContentHash := false; outputPath := "/dist" |}.

(** Stand-ins for [getTagSrc], [path.relative] and [path.join], enough for
    tags whose source lies directly under the public path. *)
Definition demo_getTagSrc (tag : HtmlTagObject) : option string :=
  match attributes tag with
  | Some attrs =>
      match attrs !! "href", attrs !! "src" with
      | Some (AStr s), _ => Some s
      | _, Some (AStr s) => Some s
      | _, _ => None
      end
  | None => None
  end.

Definition demo_relative (from to : string) : string :=
  if String.prefix from to then str_drop (String.length from) to else to.

Definition demo_join (dir file : string) : string := dir +:+ "/" +:+ file.

(** A tag as the HTML generator emits it. *)
Definition scriptTag (attrs : list (string * AttrValue)) : HtmlTagObject :=
  {| tagName := "script"; attributes := Some (list_to_map attrs); voidTag := false |}.

(** [q] is [p] up to the reported messages and the asset infos. *)
Definition same_core (p q : Plugin) : Prop :=
  assets (compilation q) = assets (compilation p)
  ∧ chunks (compilation q) = chunks (compilation p)
  ∧ options q = options p
  ∧ assetIntegrity q = assetIntegrity p
  ∧ inverseAssetIntegrity q = inverseAssetIntegrity p
  ∧ sortedSccChunks q = sortedSccChunks p
  ∧ hashByChunkId q = hashByChunkId p.

(** The texts and the options of [q] are those of [p0]. *)
Definition sameContents (p0 q : Plugin) : Prop :=
  options q = options p0
  ∧ forall k, content (assets (compilation q)) k = content (assets (compilation p0)) k.

(** A stand-in for [getChunkToManifestMap] on a chunk list that is already
    in dependency order and has no cycle: every chunk is its own component,
    and no manifest is needed. *)
Definition demo_getChunkToManifestMap (chunks : list Chunk)
    : list StronglyConnectedComponent * list (Chunk * list Chunk) :=
  (map (fun c => {| nodes := [c] |}) chunks, []).

(** Two chunks that load each other, and a stand-in for [findChunks] on
    them: the chunk itself, then the chunk it reaches. *)
Definition demo_chunkA : Chunk := {| id := Some (IdStr "a"); files := ["a.js"] |}.
Definition demo_chunkB : Chunk := {| id := Some (IdStr "b"); files := ["b.js"] |}.

Definition demo_cycle_findChunks (c : Chunk) : list Chunk :=
  match id c with
  | Some (IdStr "a") => [demo_chunkA; demo_chunkB]
  | Some (IdStr "b") => [demo_chunkB; demo_chunkA]
  | _ => [c]
  end.

(** A run of [updateAssetIntegrity] calls. *)
Definition recordAll (l : list (string * string)) (p : Plugin) : Plugin :=
  fold_left (fun p kd => updateAssetIntegrity (fst kd) (snd kd) p) l p.

(** Every reverse entry is matched by the forward map. *)
Definition inverse_backed (p : Plugin) : Prop :=
  forall d k, inverseAssetIntegrity p !! d = Some k -> assetIntegrity p !! k = Some d.

(** Every forward entry is matched by the reverse map. *)
Definition forward_backed (p : Plugin) : Prop :=
  forall k d, assetIntegrity p !! k = Some d -> inverseAssetIntegrity p !! d = Some k.

(** ** Notions for the properties of the whole class *)

(** The asset keys that a run of registry calls passes to
    [updateAssetIntegrity]. *)
Fixpoint recordedKeys (calls : list RegistryCall) : gset string :=
  match calls with
  | [] => ∅
  | CallRecord assetKey _ :: calls' => {[assetKey]} ∪ recordedKeys calls'
  | CallRehash _ _ :: calls' => recordedKeys calls'
  end.

(** The fingerprints a hash field of an asset info holds; an empty string
    counts as no fingerprint, as in the truthiness tests of the class. *)
Definition hash_members (h : HashField) : list string :=
  match h with
  | HUndefined => []
  | HString s => if truthy s then [s] else []
  | HArray l => l
  end.

(** [source()] of the asset does not throw. *)
Definition readable (a : Source) : bool :=
  match source a with
  | Some _ => true
  | None => false
  end.

Definition allReadable (assets : list (string * Source)) : bool :=
  forallb (fun ka => readable (snd ka)) assets.

(** [q] has the asset keys and the options of [p0], and all its assets
    are readable. *)
Definition healthy (p0 q : Plugin) : Prop :=
  allReadable (assets (compilation q)) = true
  ∧ map fst (assets (compilation q)) = map fst (assets (compilation p0))
  ∧ options q = options p0.

(** The asset under key [f] is there and its [source()] throws. *)
Definition unreadableAt (f : string) (q : Plugin) : Prop :=
  exists a, alist_get f (assets (compilation q)) = Some a ∧ source a = None.

(** Every owner in the reverse map is a key of the asset table. *)
Definition owners_are_assets (p : Plugin) : Prop :=
  forall d k, inverseAssetIntegrity p !! d = Some k ->
              k ∈ map fst (assets (compilation p)).

(** * Properties *)

(** ** The integrity registry *)

Lemma updateAssetIntegrity_present assetKey integrity p :
  is_Some (assetIntegrity p !! assetKey) ->
  updateAssetIntegrity assetKey integrity p = p.
Proof. intros [d Hd]. unfold updateAssetIntegrity. by rewrite Hd. Qed.

Lemma updateAssetIntegrity_absent assetKey integrity p :
  assetIntegrity p !! assetKey = None ->
  assetIntegrity (updateAssetIntegrity assetKey integrity p)
    = <[assetKey := integrity]> (assetIntegrity p)
  ∧ inverseAssetIntegrity (updateAssetIntegrity assetKey integrity p)
    = <[integrity := assetKey]> (inverseAssetIntegrity p).
Proof. intros Hk. unfold updateAssetIntegrity. by rewrite Hk. Qed.

Lemma updateAssetIntegrity_lookup assetKey integrity p :
  assetIntegrity (updateAssetIntegrity assetKey integrity p) !! assetKey
  = Some (default integrity (assetIntegrity p !! assetKey)).
Proof.
  unfold updateAssetIntegrity.
  destruct (assetIntegrity p !! assetKey) as [d|] eqn:Hk; simpl.
  - done.
  - by rewrite lookup_insert_eq.
Qed.

Lemma updateAssetIntegrity_keeps assetKey integrity p k d :
  assetIntegrity p !! k = Some d ->
  assetIntegrity (updateAssetIntegrity assetKey integrity p) !! k = Some d.
Proof.
  intros Hk. unfold updateAssetIntegrity.
  destruct (assetIntegrity p !! assetKey) as [d'|] eqn:Ha; simpl; [done|].
  rewrite lookup_insert_ne; [done | congruence].
Qed.

Lemma updateAssetIntegrity_other assetKey integrity p k :
  k ≠ assetKey ->
  assetIntegrity (updateAssetIntegrity assetKey integrity p) !! k
  = assetIntegrity p !! k.
Proof.
  intros Hne. unfold updateAssetIntegrity.
  destruct (assetIntegrity p !! assetKey); simpl; [done|].
  by rewrite lookup_insert_ne.
Qed.

(** What [updateAssetIntegrity] leaves alone. *)
Lemma updateAssetIntegrity_frame assetKey integrity p :
  let p' := updateAssetIntegrity assetKey integrity p in
  compilation p' = compilation p ∧ options p' = options p
  ∧ reporter p' = reporter p ∧ hwpPublicPath p' = hwpPublicPath p
  ∧ sortedSccChunks p' = sortedSccChunks p
  ∧ chunkManifest p' = chunkManifest p ∧ hashByChunkId p' = hashByChunkId p.
Proof.
  unfold updateAssetIntegrity. destruct (assetIntegrity p !! assetKey); simpl; done.
Qed.

Lemma recordAll_keeps l : forall p k d,
  assetIntegrity p !! k = Some d ->
  assetIntegrity (recordAll l p) !! k = Some d.
Proof.
  induction l as [|[k' d'] l IH]; intros p k d Hk; simpl; [done|].
  apply IH. by apply updateAssetIntegrity_keeps.
Qed.

(** *** First writer wins *)

(** C4. [updateAssetIntegrity] inserts the forward and the reverse entry
    only when the asset key is absent and otherwise changes nothing; so
    after [record(k, d1)] on an unrecorded key, whatever is recorded later,
    a [record(k, d2)] leaves [lookup(k) = d1], and recording twice with the
    same arguments is the same as recording once. *)
Theorem updateAssetIntegrity_first_writer_wins
    (p : Plugin) (k d1 d2 : string) (later : list (string * string)) :
  let p1 := updateAssetIntegrity k d1 p in
  match assetIntegrity p !! k with
  | None =>
      assetIntegrity p1 = <[k := d1]> (assetIntegrity p)
      ∧ inverseAssetIntegrity p1 = <[d1 := k]> (inverseAssetIntegrity p)
  | Some _ => p1 = p
  end
  ∧ (assetIntegrity p !! k = None ->
     assetIntegrity (updateAssetIntegrity k d2 (recordAll later p1)) !! k = Some d1)
  ∧ updateAssetIntegrity k d2 p1 = p1
  ∧ updateAssetIntegrity k d1 p1 = p1.
Proof.
  intros p1. subst p1.
  assert (Hin : is_Some (assetIntegrity (updateAssetIntegrity k d1 p) !! k)).
  { rewrite updateAssetIntegrity_lookup. eauto. }
  repeat split.
  - destruct (assetIntegrity p !! k) as [d|] eqn:Hk.
    + apply updateAssetIntegrity_present. rewrite Hk. eauto.
    + by apply updateAssetIntegrity_absent.
  - intros Hk. apply updateAssetIntegrity_keeps, recordAll_keeps.
    rewrite updateAssetIntegrity_lookup, Hk. done.
  - by apply updateAssetIntegrity_present.
  - by apply updateAssetIntegrity_present.
Qed.

(** On a new plugin: [main.js] keeps its first digest through three later records. *)
Lemma updateAssetIntegrity_first_writer_wins_witness :
  let fresh := newPlugin (demo_compilation [] []) (demo_options eager) [] in
  assetIntegrity
    (updateAssetIntegrity "main.js" "sha256-BBBB"
       (recordAll [("x.js", "sha256-CCCC"); ("main.js", "sha256-DDDD")]
          (updateAssetIntegrity "main.js" "sha256-AAAA" fresh))) !! "main.js"
  = Some "sha256-AAAA".
Proof.
  intros fresh.
  apply (updateAssetIntegrity_first_writer_wins fresh "main.js" "sha256-AAAA"
           "sha256-BBBB" [("x.js", "sha256-CCCC"); ("main.js", "sha256-DDDD")]).
  reflexivity.
Defined.

(** *** Forward and reverse map *)

Lemma newPlugin_inverse_backed c o r : inverse_backed (newPlugin c o r).
Proof. intros d k H. simpl in H. by rewrite lookup_empty in H. Qed.

Lemma newPlugin_forward_backed c o r : forward_backed (newPlugin c o r).
Proof. intros d k H. simpl in H. by rewrite lookup_empty in H. Qed.

Lemma updateAssetIntegrity_inverse_backed assetKey integrity p :
  inverse_backed p -> inverse_backed (updateAssetIntegrity assetKey integrity p).
Proof.
  intros Hinv. unfold updateAssetIntegrity.
  destruct (assetIntegrity p !! assetKey) as [d0|] eqn:Hk; [done|].
  intros d k. simpl. intros H.
  destruct (decide (integrity = d)) as [->|Hd].
  - rewrite lookup_insert_eq in H. injection H as <-. by rewrite lookup_insert_eq.
  - rewrite lookup_insert_ne in H by done. apply Hinv in H.
    rewrite lookup_insert_ne; [done | congruence].
Qed.

Lemma delete_owner_inverse_backed oldHash assetKey p :
  inverse_backed p ->
  inverseAssetIntegrity p !! oldHash = Some assetKey ->
  inverse_backed
    (with_registry (delete assetKey (assetIntegrity p))
                   (delete oldHash (inverseAssetIntegrity p)) p).
Proof.
  intros Hinv Hold d k. simpl. intros H.
  destruct (decide (oldHash = d)) as [->|Hd].
  - by rewrite lookup_delete_eq in H.
  - rewrite lookup_delete_ne in H by done.
    pose proof (Hinv _ _ H) as Hk. pose proof (Hinv _ _ Hold) as Hk'.
    rewrite lookup_delete_ne; [done | congruence].
Qed.

Section RegistryInvariant.

Variable computeIntegrity : list string -> string -> string.

Lemma updateHash_inverse_backed input oldHash p :
  inverse_backed p ->
  inverse_backed (fst (updateHash computeIntegrity input oldHash p)).
Proof.
  intros Hinv. unfold updateHash.
  destruct (inverseAssetIntegrity p !! oldHash) as [assetKey|] eqn:Hold; [|done].
  destruct input as [|input0 [|]]; try done.
  destruct (truthy assetKey); [|done]. simpl.
  apply updateAssetIntegrity_inverse_backed.
  by apply (delete_owner_inverse_backed oldHash assetKey p).
Qed.

Lemma registryCalls_inverse_backed calls : forall p,
  inverse_backed p -> inverse_backed (registryCalls computeIntegrity calls p).
Proof.
  induction calls as [|c calls IH]; intros p Hinv; [done|].
  simpl. apply IH. destruct c as [k d|input oldHash]; simpl.
  - by apply updateAssetIntegrity_inverse_backed.
  - by apply updateHash_inverse_backed.
Qed.

End RegistryInvariant.

Lemma digest_unused_spec d (fwd : gmap string string) :
  digest_unused d fwd = true <-> forall k, fwd !! k ≠ Some d.
Proof.
  unfold digest_unused. rewrite bool_decide_eq_true. split.
  - intros H k Hk. by apply (H k d).
  - intros H k d' Hk ->. by apply (H k).
Qed.

Lemma updateAssetIntegrity_forward_backed assetKey integrity p :
  forward_backed p ->
  (assetIntegrity p !! assetKey = None ->
   digest_unused integrity (assetIntegrity p) = true) ->
  forward_backed (updateAssetIntegrity assetKey integrity p).
Proof.
  intros Hfwd Hfresh. unfold updateAssetIntegrity.
  destruct (assetIntegrity p !! assetKey) as [d0|] eqn:Hk; [done|].
  specialize (Hfresh eq_refl). rewrite digest_unused_spec in Hfresh.
  intros k d. simpl. intros H.
  destruct (decide (assetKey = k)) as [->|Hne].
  - rewrite lookup_insert_eq in H. injection H as <-. by rewrite lookup_insert_eq.
  - rewrite lookup_insert_ne in H by done.
    rewrite lookup_insert_ne; [by apply Hfwd|].
    intros ->. by apply (Hfresh k).
Qed.

Section RegistryConsistency.

Variable computeIntegrity : list string -> string -> string.

Lemma updateHash_forward_backed input oldHash p :
  forward_backed p ->
  call_fresh computeIntegrity p (CallRehash input oldHash) = true ->
  forward_backed (fst (updateHash computeIntegrity input oldHash p)).
Proof.
  intros Hfwd Hfresh. unfold updateHash. simpl in Hfresh.
  destruct (inverseAssetIntegrity p !! oldHash) as [assetKey|] eqn:Hold; [|done].
  destruct input as [|input0 [|]]; try done.
  destruct (truthy assetKey); [|done]. simpl.
  apply updateAssetIntegrity_forward_backed.
  - intros k d. simpl. intros H.
    destruct (decide (assetKey = k)) as [->|Hne].
    + by rewrite lookup_delete_eq in H.
    + rewrite lookup_delete_ne in H by done. apply Hfwd in H.
      rewrite lookup_delete_ne; [done | congruence].
  - done.
Qed.

Lemma registryCalls_forward_backed calls : forall p,
  forward_backed p ->
  calls_fresh computeIntegrity calls p = true ->
  forward_backed (registryCalls computeIntegrity calls p).
Proof.
  induction calls as [|c calls IH]; intros p Hfwd Hfresh; [done|].
  simpl in *. apply andb_true_iff in Hfresh as [Hc Hcalls].
  apply IH; [|done]. destruct c as [k d|input oldHash]; simpl.
  - apply updateAssetIntegrity_forward_backed; [done|].
    intros Hk. simpl in Hc. by rewrite Hk in Hc.
  - by apply updateHash_forward_backed.
Qed.

(** C1 (amended). After any sequence of [updateAssetIntegrity] and
    [updateHash] calls on a new plugin, every reverse entry is matched by
    the forward map: [reverse[d] = k] implies [lookup(k) = d].  The
    converse, and with it the equivalence, holds for the sequences in
    which no call gives an asset key a digest that another key holds. *)
Theorem registry_reverse_consistent
    (calls : list RegistryCall) (c : Compilation)
    (o : SubresourceIntegrityPluginResolvedOptions) (r : list string) :
  let p := registryCalls computeIntegrity calls (newPlugin c o r) in
  (forall d k, inverseAssetIntegrity p !! d = Some k -> assetIntegrity p !! k = Some d)
  ∧ (calls_fresh computeIntegrity calls (newPlugin c o r) = true ->
     forall k d, assetIntegrity p !! k = Some d <-> inverseAssetIntegrity p !! d = Some k).
Proof.
  intros p.
  assert (Hinv : inverse_backed p).
  { apply registryCalls_inverse_backed, newPlugin_inverse_backed. }
  split; [exact Hinv|].
  intros Hfresh k d. split; [|apply Hinv].
  revert k d. fold (forward_backed p).
  apply registryCalls_forward_backed; [apply newPlugin_forward_backed | done].
Qed.

End RegistryConsistency.

(** Two records with different digests and a rehash of the first. *)
Lemma registry_reverse_consistent_witness :
  let calls := [CallRecord "a.js" "sha256-AAAA"; CallRecord "b.js" "sha256-BBBB";
                CallRehash ["xyz"] "sha256-AAAA"] in
  let p := registryCalls demo_computeIntegrity calls
             (newPlugin (demo_compilation [] []) (demo_options eager) []) in
  assetIntegrity p !! "a.js" = Some (demo_computeIntegrity ["sha256"] "xyz")
  ∧ (assetIntegrity p !! "b.js" = Some "sha256-BBBB"
     <-> inverseAssetIntegrity p !! "sha256-BBBB" = Some "b.js").
Proof.
  intros calls p.
  destruct (registry_reverse_consistent demo_computeIntegrity calls
              (demo_compilation [] []) (demo_options eager) []) as [Hrev Hiff].
  split.
  - apply Hrev. vm_compute. reflexivity.
  - apply Hiff. vm_compute. reflexivity.
Defined.

(** C1, as stated, fails: two asset keys recorded with one digest leave the
    first key in the forward map while the reverse map names the second. *)
Lemma registry_iff_counterexample :
  let p := registryCalls demo_computeIntegrity
             [CallRecord "a.js" "sha256-AAAA"; CallRecord "b.js" "sha256-AAAA"]
             (newPlugin (demo_compilation [] []) (demo_options eager) []) in
  ~ (forall k d, assetIntegrity p !! k = Some d <-> inverseAssetIntegrity p !! d = Some k).
Proof.
  intros p H.
  destruct (H "a.js" "sha256-AAAA") as [Hab _].
  assert (Hfwd : assetIntegrity p !! "a.js" = Some "sha256-AAAA") by (vm_compute; reflexivity).
  apply Hab in Hfwd. vm_compute in Hfwd. discriminate Hfwd.
Qed.

(** *** Rehash *)

Section Rehash.

Variable computeIntegrity : list string -> string -> string.

(** C3. [updateHash] returns the new digest and replaces the forward and
    the reverse entry together when the old digest is known and exactly
    one buffer is supplied; it returns nothing and leaves the plugin as it
    is when the old digest is unknown or the input is not a single buffer.
    It has no throwing path.  The owner of a digest is an asset key, that
    is a key of the asset table or a file of a chunk, and so a file name:
    the premise [assetKey ≠ ""] says that it is not the empty string, the
    one string that the guard [assetKey && ...] takes for a missing
    owner. *)
Theorem updateHash_rehash (input : list string) (oldHash : string) (p : Plugin) :
  (forall assetKey input0,
     inverseAssetIntegrity p !! oldHash = Some assetKey ->
     assetKey ≠ "" ->
     input = [input0] ->
     let newIntegrity := computeIntegrity (hashFuncNames (options p)) input0 in
     let p' := fst (updateHash computeIntegrity input oldHash p) in
     snd (updateHash computeIntegrity input oldHash p) = Some newIntegrity
     ∧ assetIntegrity p' = <[assetKey := newIntegrity]> (assetIntegrity p)
     ∧ inverseAssetIntegrity p'
       = <[newIntegrity := assetKey]> (delete oldHash (inverseAssetIntegrity p))
     ∧ compilation p' = compilation p ∧ options p' = options p
     ∧ reporter p' = reporter p ∧ hwpPublicPath p' = hwpPublicPath p
     ∧ sortedSccChunks p' = sortedSccChunks p
     ∧ chunkManifest p' = chunkManifest p
     ∧ hashByChunkId p' = hashByChunkId p)
  ∧ (inverseAssetIntegrity p !! oldHash = None ∨ length input ≠ 1 ->
     updateHash computeIntegrity input oldHash p = (p, None)).
Proof.
  split.
  - intros assetKey input0 Hold Hkey -> newIntegrity p'.
    subst p'. unfold updateHash. rewrite Hold.
    destruct assetKey as [|a assetKey]; [done|]. simpl.
    unfold updateAssetIntegrity. simpl. rewrite lookup_delete_eq. simpl.
    by rewrite insert_delete_eq.
  - intros [Hold | Hlen]; unfold updateHash.
    + by rewrite Hold.
    + destruct (inverseAssetIntegrity p !! oldHash); [|done].
      by destruct input as [|input0 [|]].
Qed.

End Rehash.

(** A rehash with one buffer, and one with two. *)
Lemma updateHash_rehash_witness :
  let p := updateAssetIntegrity "main.js" "sha256-AAAA"
             (newPlugin (demo_compilation [] []) (demo_options eager) []) in
  snd (updateHash demo_computeIntegrity ["xyz"] "sha256-AAAA" p)
  = Some (demo_computeIntegrity ["sha256"] "xyz")
  ∧ updateHash demo_computeIntegrity ["xyz"; "uvw"] "sha256-AAAA" p = (p, None).
Proof.
  intros p.
  destruct (updateHash_rehash demo_computeIntegrity ["xyz"] "sha256-AAAA" p) as [Hnew _].
  destruct (updateHash_rehash demo_computeIntegrity ["xyz"; "uvw"] "sha256-AAAA" p) as [_ Hnone].
  split.
  - apply (Hnew "main.js" "xyz"); [vm_compute; reflexivity | discriminate | reflexivity].
  - apply Hnone. right. simpl. lia.
Defined.

(** The guard of [updateHash] is a truthiness test on the owner: had the
    empty string been recorded as an asset key, its digest would be known
    to the reverse map and [updateHash] would still return nothing. *)
Lemma updateHash_empty_owner :
  let p := updateAssetIntegrity "" "sha256-AAAA"
             (newPlugin (demo_compilation [] []) (demo_options eager) []) in
  inverseAssetIntegrity p !! "sha256-AAAA" = Some ""
  ∧ assetIntegrity p !! "" = Some "sha256-AAAA"
  ∧ snd (updateHash demo_computeIntegrity ["xyz"] "sha256-AAAA" p) = None.
Proof. vm_compute. repeat split; reflexivity. Qed.

(** *** Start of the hash-emission phase *)

Section BeforeRuntimeRequirements.

Variable getChunkToManifestMap :
  list Chunk -> list StronglyConnectedComponent * list (Chunk * list Chunk).

Lemma beforeRuntimeRequirements_registry (p : Plugin) :
  let p' := beforeRuntimeRequirements getChunkToManifestMap p in
  assetIntegrity p' = assetIntegrity p
  ∧ inverseAssetIntegrity p' = inverseAssetIntegrity p
  ∧ compilation p' = compilation p ∧ options p' = options p
  ∧ reporter p' = reporter p ∧ hwpPublicPath p' = hwpPublicPath p.
Proof.
  unfold beforeRuntimeRequirements.
  destruct (hashLoading (options p)); [| destruct (getChunkToManifestMap _)]; done.
Qed.

(** C5 (amended). [beforeRuntimeRequirements] empties the chunk-id hash
    table, so every lookup on it is absent afterwards, and in lazy mode
    recomputes the sorted components and the chunk manifest; it leaves the
    two asset-integrity maps as they are.  These are empty in a newly
    constructed plugin, where every lookup is absent after the call. *)
Theorem beforeRuntimeRequirements_clears_hashByChunkId (p : Plugin) :
  let p' := beforeRuntimeRequirements getChunkToManifestMap p in
  (forall i, alist_get i (hashByChunkId p') = None)
  ∧ assetIntegrity p' = assetIntegrity p
  ∧ inverseAssetIntegrity p' = inverseAssetIntegrity p
  ∧ compilation p' = compilation p ∧ options p' = options p
  ∧ reporter p' = reporter p ∧ hwpPublicPath p' = hwpPublicPath p
  ∧ match hashLoading (options p) with
    | lazy => (sortedSccChunks p', chunkManifest p')
              = getChunkToManifestMap (chunks (compilation p))
    | eager => sortedSccChunks p' = sortedSccChunks p
               ∧ chunkManifest p' = chunkManifest p
    end
  ∧ forall c o r k,
      let q := beforeRuntimeRequirements getChunkToManifestMap (newPlugin c o r) in
      assetIntegrity q !! k = None ∧ inverseAssetIntegrity q !! k = None.
Proof.
  intros p'. subst p'.
  split; [|split; [|split; [|split; [|split; [|split; [|split; [|split]]]]]]];
    try apply beforeRuntimeRequirements_registry;
    try (intros c o r k q; subst q;
         destruct (beforeRuntimeRequirements_registry (newPlugin c o r))
           as (-> & -> & _); split; apply lookup_empty);
    unfold beforeRuntimeRequirements;
    (destruct (hashLoading (options p)); [| destruct (getChunkToManifestMap _)]);
    done.
Qed.

End BeforeRuntimeRequirements.

(** C5, as stated, fails: an entry of the asset-integrity maps is still
    there after [beforeRuntimeRequirements]. *)
Lemma beforeRuntimeRequirements_keeps_registry_counterexample :
  let p := updateAssetIntegrity "main.js" "sha256-BBBB"
             (newPlugin (demo_compilation [] []) (demo_options eager) []) in
  let p' := beforeRuntimeRequirements (fun _ => ([], [])) p in
  assetIntegrity p' !! "main.js" = Some "sha256-BBBB"
  ∧ inverseAssetIntegrity p' !! "sha256-BBBB" = Some "main.js".
Proof. vm_compute. split; reflexivity. Qed.

(** *** Filling in the missing digests *)

Lemma alist_get_elem {V : Type} (k : string) (l : list (string * V)) (v : V) :
  alist_get k l = Some v -> k ∈ map fst l.
Proof.
  induction l as [|[k' v'] l IH]; simpl; [done|].
  destruct (decide (k = k')) as [->|Hne]; intros H.
  - apply elem_of_cons. by left.
  - apply elem_of_cons. right. by apply IH.
Qed.

Section FillMissing.

Variable computeIntegrity : list string -> string -> string.
Variable assets : list (string * Source).

(** The forward map after [addMissingIntegrityHashes] has gone through
    the keys [keys]. *)
Lemma addMissing_fold (keys : list string) : forall (p : Plugin) (k : string),
  let p' :=
    fold_left
      (fun p assetKey =>
         match alist_get assetKey assets ≫= source with
         | None => p
         | Some src =>
             updateAssetIntegrity assetKey
               (computeIntegrity (hashFuncNames (options p)) src) p
         end) keys p in
  (compilation p' = compilation p ∧ options p' = options p
   ∧ reporter p' = reporter p ∧ hashByChunkId p' = hashByChunkId p
   ∧ hwpPublicPath p' = hwpPublicPath p)
  ∧ assetIntegrity p' !! k
    = match assetIntegrity p !! k with
      | Some d => Some d
      | None =>
          if bool_decide (k ∈ keys)
          then computeIntegrity (hashFuncNames (options p)) <$> (alist_get k assets ≫= source)
          else None
      end.
Proof.
  induction keys as [|a keys IH]; intros p k; simpl.
  - split; [done|]. by destruct (assetIntegrity p !! k).
  - match goal with |- context [fold_left ?f keys ?q] => set (p1 := q) end.
    assert (Hframe : compilation p1 = compilation p ∧ options p1 = options p
                     ∧ reporter p1 = reporter p ∧ hashByChunkId p1 = hashByChunkId p
                     ∧ hwpPublicPath p1 = hwpPublicPath p).
    { subst p1. destruct (alist_get a assets ≫= source); [|done].
      pose proof (updateAssetIntegrity_frame a
        (computeIntegrity (hashFuncNames (options p)) s) p) as H.
      simpl in H. destruct H as (? & ? & ? & ? & ? & ? & ?). done. }
    destruct (IH p1 k) as [Hf Hl]. split.
    { destruct Hframe as (? & ? & ? & ? & ?). destruct Hf as (? & ? & ? & ? & ?).
      repeat split; congruence. }
    simpl in Hl. rewrite Hl. clear Hl Hf IH.
    destruct Hframe as (_ & Hopt & _). rewrite Hopt.
    destruct (decide (k = a)) as [->|Hne].
    + rewrite (bool_decide_eq_true_2 (a ∈ a :: keys)) by (apply elem_of_cons; by left).
      subst p1. destruct (alist_get a assets ≫= source) as [src|] eqn:Hsrc.
      * rewrite updateAssetIntegrity_lookup.
        by destruct (assetIntegrity p !! a).
      * destruct (assetIntegrity p !! a); [done|]. by case_bool_decide.
    + assert (Hk : assetIntegrity p1 !! k = assetIntegrity p !! k).
      { subst p1. destruct (alist_get a assets ≫= source); [|done].
        by apply updateAssetIntegrity_other. }
      rewrite Hk. destruct (assetIntegrity p !! k); [done|].
      assert (Hiff : k ∈ a :: keys <-> k ∈ keys).
      { rewrite elem_of_cons. split; [by intros [->|?] | by right]. }
      by rewrite (bool_decide_ext _ _ Hiff).
Qed.


End FillMissing.

Section FillMissingContract.

Variable computeIntegrity : list string -> string -> string.


End FillMissingContract.


(** ** The tag injector *)

Section TagInjector.

Variable computeIntegrity : list string -> string -> string.
Variable normalizePath : string -> string.
Variable getTagSrc : HtmlTagObject -> option string.
Variable relative : string -> string -> string.
Variable join : string -> string -> string.
Variable readFileSync : string -> option string.

Local Abbreviation processTag' :=
  (processTag computeIntegrity normalizePath getTagSrc relative join readFileSync).
Local Abbreviation skipped' := (skipped getTagSrc).

Lemma processTag_skip (p : Plugin) (tag : HtmlTagObject) :
  skipped' tag -> processTag' p tag = Ok tag.
Proof.
  unfold processTag. intros [H | [H | H]]; rewrite H; [done| |];
    by destruct (hasIntegrity tag).
Qed.

Lemma processTag_inv (p : Plugin) (tag tag' : HtmlTagObject) :
  processTag' p tag = Ok tag' ->
  (tag' = tag ∧ skipped' tag)
  ∨ (hasIntegrity tag = false
     ∧ exists attrs integrity tagSrc,
         getTagSrc tag = Some tagSrc ∧ truthy tagSrc = true
         ∧ attributes tag = Some attrs
         ∧ tag' = {| tagName := tagName tag;
                     attributes :=
                       Some (<["crossorigin" :=
                                 AStr (crossOriginValue (crossOriginLoading (compilation p)))]>
                               (<["integrity" := AStr integrity]> attrs));
                     voidTag := voidTag tag |}).
Proof.
  unfold processTag, skipped.
  destruct (hasIntegrity tag) eqn:Hint.
  { intros [= <-]. left. auto. }
  destruct (getTagSrc tag) as [tagSrc|] eqn:Hsrc.
  2:{ intros [= <-]. left. auto. }
  destruct tagSrc as [|c tagSrc]; simpl.
  { intros [= <-]. left. auto. }
  intros H. right. split; [done|].
  destruct (hwpAssetPath relative (String c tagSrc) p) as [src|e]; simpl in H; [|done].
  match type of H with
  | bind ?r _ = _ => destruct r as [integrity|e]; simpl in H; [|done]
  end.
  destruct (attributes tag) as [attrs|]; simpl in H; [|done].
  injection H as <-. by exists attrs, integrity, (String c tagSrc).
Qed.

Lemma hasIntegrity_written (tag : HtmlTagObject) attrs integrity crossorigin :
  hasIntegrity {| tagName := tagName tag;
                  attributes := Some (<["crossorigin" := crossorigin]>
                                        (<["integrity" := integrity]> attrs));
                  voidTag := voidTag tag |} = true.
Proof.
  unfold hasIntegrity. simpl. apply bool_decide_eq_true.
  rewrite lookup_insert_ne by done. rewrite lookup_insert_eq. eauto.
Qed.

Lemma processTag_twice (p p' : Plugin) (tag tag' : HtmlTagObject) :
  processTag' p tag = Ok tag' -> processTag' p' tag' = Ok tag'.
Proof.
  intros H. apply processTag_inv in H as [[-> Hskip] | [_ H]].
  - by apply processTag_skip.
  - destruct H as (attrs & integrity & tagSrc & _ & _ & _ & ->).
    apply processTag_skip. left. apply hasIntegrity_written.
Qed.

Lemma mapM_processTag_twice (p p' : Plugin) (tags : list HtmlTagObject) :
  forall tags', mapM (processTag' p) tags = Ok tags' ->
                mapM (processTag' p') tags' = Ok tags'.
Proof.
  induction tags as [|tag tags IH]; intros tags'; simpl.
  - by intros [= <-].
  - destruct (processTag' p tag) as [tag'|e] eqn:Htag; simpl; [|done].
    destruct (mapM (processTag' p) tags) as [rest|e] eqn:Hrest; simpl; [|done].
    intros [= <-]. simpl.
    rewrite (processTag_twice p p' tag tag' Htag). simpl.
    by rewrite (IH rest eq_refl).
Qed.

(** C7. A tag that already carries an [integrity] attribute comes back
    from [processTag] as it went in; hence what one pass of [processTag]
    returns, for a tag or for a whole tag list, is returned unchanged by
    a second pass. *)
Theorem processTag_idempotent
    (p p' : Plugin) (tag tag' : HtmlTagObject) (tags tags' : list HtmlTagObject) :
  (hasIntegrity tag = true -> processTag' p tag = Ok tag)
  ∧ (processTag' p tag = Ok tag' -> processTag' p' tag' = Ok tag')
  ∧ (mapM (processTag' p) tags = Ok tags' -> mapM (processTag' p') tags' = Ok tags').
Proof.
  split; [|split].
  - intros H. apply processTag_skip. by left.
  - apply processTag_twice.
  - apply mapM_processTag_twice.
Qed.

Lemma processTag_annotate (p : Plugin) (tag : HtmlTagObject)
    (attrs : gmap string AttrValue) (tagSrc publicPath integrity : string) :
  attributes tag = Some attrs ->
  attrs !! "integrity" = None ->
  getTagSrc tag = Some tagSrc ->
  tagSrc ≠ "" ->
  hwpPublicPath p = Some publicPath ->
  assetIntegrity p !! relative publicPath tagSrc = Some integrity ->
  integrity ≠ "" ->
  processTag' p tag
  = Ok {| tagName := tagName tag;
          attributes :=
            Some (<["crossorigin" :=
                      AStr (crossOriginValue (crossOriginLoading (compilation p)))]>
                    (<["integrity" := AStr integrity]> attrs));
          voidTag := voidTag tag |}.
Proof.
  intros Hattrs Hnone Hsrc Hne Hpp Hreg Hd.
  unfold processTag, hasIntegrity, hwpAssetPath, getIntegrityChecksumForAsset.
  rewrite Hattrs, Hnone, Hsrc, Hpp. simpl.
  destruct tagSrc as [|c tagSrc]; [done|]. simpl.
  rewrite Hreg. destruct integrity as [|c' integrity]; [done|]. done.
Qed.

(** C8. Whenever [processTag] changes a tag, the tag's [crossorigin]
    attribute is the configured cross-origin loading mode, and
    ["anonymous"] when none is configured; a tag whose source resolves to a
    non-empty registry entry gets that entry as [integrity] and this value
    as [crossorigin], its other attributes kept. *)
Theorem processTag_crossorigin (p : Plugin) (tag tag' : HtmlTagObject) :
  (processTag' p tag = Ok tag' -> tag' ≠ tag ->
   exists attrs',
     attributes tag' = Some attrs'
     ∧ attrs' !! "crossorigin"
       = Some (AStr (match crossOriginLoading (compilation p) with
                     | COAnonymous => "anonymous"
                     | COUseCredentials => "use-credentials"
                     | COUnset | COFalse => "anonymous"
                     end)))
  ∧ (forall attrs tagSrc publicPath integrity,
       attributes tag = Some attrs ->
       attrs !! "integrity" = None ->
       getTagSrc tag = Some tagSrc ->
       tagSrc ≠ "" ->
       hwpPublicPath p = Some publicPath ->
       assetIntegrity p !! relative publicPath tagSrc = Some integrity ->
       integrity ≠ "" ->
       crossOriginLoading (compilation p) = COUnset ->
       processTag' p tag
       = Ok {| tagName := tagName tag;
               attributes :=
                 Some (<["crossorigin" := AStr "anonymous"]>
                         (<["integrity" := AStr integrity]> attrs));
               voidTag := voidTag tag |}).
Proof.
  split.
  - intros H Hne. apply processTag_inv in H as [[-> _] | [_ H]]; [done|].
    destruct H as (attrs & integrity & tagSrc & _ & _ & _ & ->). simpl.
    eexists. split; [done|]. rewrite lookup_insert_eq.
    by destruct (crossOriginLoading (compilation p)).
  - intros attrs tagSrc publicPath integrity Hattrs Hnone Hsrc Hne Hpp Hreg Hd Hco.
    rewrite (processTag_annotate p tag attrs tagSrc publicPath integrity) by done.
    by rewrite Hco.
Qed.

(** C10. [processTag] returns the tag with the same name and flags, and
    with an attribute map that differs from the old one in the
    [integrity] and [crossorigin] entries at most; a tag without a source
    reference comes back as it is, whatever the registry, the public path
    and the file system are. *)
Theorem processTag_frame (p : Plugin) (tag tag' : HtmlTagObject) :
  (processTag' p tag = Ok tag' ->
   tagName tag' = tagName tag ∧ voidTag tag' = voidTag tag
   ∧ (attributes tag' = attributes tag
      ∨ exists attrs integrity crossorigin,
          attributes tag = Some attrs
          ∧ attributes tag'
            = Some (<["crossorigin" := crossorigin]> (<["integrity" := integrity]> attrs)))
   ∧ forall a, a ≠ "integrity" -> a ≠ "crossorigin" ->
       attributes tag' ≫= (fun attrs => attrs !! a)
       = attributes tag ≫= (fun attrs => attrs !! a))
  ∧ (getTagSrc tag = None ∨ getTagSrc tag = Some "" -> processTag' p tag = Ok tag).
Proof.
  split.
  - intros H. apply processTag_inv in H as [[-> _] | [_ H]].
    { repeat split; auto. }
    destruct H as (attrs & integrity & tagSrc & _ & _ & Hattrs & ->). simpl.
    split; [done|]. split; [done|]. split.
    + right. by exists attrs, (AStr integrity),
        (AStr (crossOriginValue (crossOriginLoading (compilation p)))).
    + intros a Hi Hc. rewrite Hattrs. simpl.
      by rewrite !lookup_insert_ne.
  - intros H. apply processTag_skip. by right.
Qed.

End TagInjector.

(** The scenario tag [{src: "main.js"}], annotated once, and a tag with its own [integrity]. *)
Lemma processTag_idempotent_witness :
  let p := with_hwpPublicPath (Some "")
             (updateAssetIntegrity "main.js" "sha256-BBBB"
                (newPlugin (demo_compilation [] []) (demo_options eager) [])) in
  let done_ := scriptTag [("src", AStr "main.js"); ("integrity", AStr "sha512-CCCC")] in
  let annotated := scriptTag [("src", AStr "main.js"); ("integrity", AStr "sha256-BBBB");
                              ("crossorigin", AStr "anonymous")] in
  let pt := processTag demo_computeIntegrity (fun s => s) demo_getTagSrc
              demo_relative demo_join (fun _ => None) in
  pt p done_ = Ok done_
  ∧ pt p annotated = Ok annotated
  ∧ mapM (pt p) [annotated; done_] = Ok [annotated; done_].
Proof.
  intros p done_ annotated pt.
  pose (tag := scriptTag [("src", AStr "main.js")]).
  split; [|split].
  - apply (processTag_idempotent demo_computeIntegrity (fun s => s) demo_getTagSrc
             demo_relative demo_join (fun _ => None) p p done_ done_ [] []).
    vm_compute. reflexivity.
  - apply (processTag_idempotent demo_computeIntegrity (fun s => s) demo_getTagSrc
             demo_relative demo_join (fun _ => None) p p tag annotated [] []).
    vm_compute. reflexivity.
  - apply (processTag_idempotent demo_computeIntegrity (fun s => s) demo_getTagSrc
             demo_relative demo_join (fun _ => None) p p tag tag
             [tag; done_] [annotated; done_]).
    vm_compute. reflexivity.
Defined.

(** The scenario: [main.js] is recorded with [sha256-BBBB], no cross-origin mode is set. *)
Lemma processTag_crossorigin_witness :
  let p := with_hwpPublicPath (Some "")
             (updateAssetIntegrity "main.js" "sha256-BBBB"
                (newPlugin (demo_compilation [] []) (demo_options eager) [])) in
  let tag := scriptTag [("src", AStr "main.js")] in
  let annotated := scriptTag [("src", AStr "main.js"); ("integrity", AStr "sha256-BBBB");
                              ("crossorigin", AStr "anonymous")] in
  let pt := processTag demo_computeIntegrity (fun s => s) demo_getTagSrc
              demo_relative demo_join (fun _ => None) in
  pt p tag = Ok annotated
  ∧ exists attrs', attributes annotated = Some attrs'
                   ∧ attrs' !! "crossorigin" = Some (AStr "anonymous").
Proof.
  intros p tag annotated pt.
  destruct (processTag_crossorigin demo_computeIntegrity (fun s => s) demo_getTagSrc
              demo_relative demo_join (fun _ => None) p tag annotated) as [Hco Hscenario].
  split.
  - transitivity
      (Ok {| tagName := tagName tag;
             attributes := Some (<["crossorigin" := AStr "anonymous"]>
                                   (<["integrity" := AStr "sha256-BBBB"]>
                                      (list_to_map [("src", AStr "main.js")])));
             voidTag := voidTag tag |}).
    + apply (Hscenario (list_to_map [("src", AStr "main.js")]) "main.js" "" "sha256-BBBB");
        try (vm_compute; reflexivity); discriminate.
    + vm_compute. reflexivity.
  - apply Hco.
    + vm_compute. reflexivity.
    + intros E. apply (f_equal hasIntegrity) in E. vm_compute in E. discriminate E.
Defined.

(** A [defer] attribute is kept; an inline script passes through a plugin that has no public path and no readable file. *)
Lemma processTag_frame_witness :
  let p := with_hwpPublicPath (Some "")
             (updateAssetIntegrity "main.js" "sha256-BBBB"
                (newPlugin (demo_compilation [] []) (demo_options eager) [])) in
  let tag := scriptTag [("src", AStr "main.js"); ("defer", ABool true)] in
  let annotated := scriptTag [("src", AStr "main.js"); ("defer", ABool true);
                              ("integrity", AStr "sha256-BBBB");
                              ("crossorigin", AStr "anonymous")] in
  let inline := scriptTag [("type", AStr "module")] in
  let pt := processTag demo_computeIntegrity (fun s => s) demo_getTagSrc
              demo_relative demo_join (fun _ => None) in
  (attributes annotated ≫= (fun attrs => attrs !! "defer"))
  = (attributes tag ≫= (fun attrs => attrs !! "defer"))
  ∧ pt (newPlugin (demo_compilation [] []) (demo_options eager) []) inline = Ok inline.
Proof.
  intros p tag annotated inline pt. split.
  - destruct (processTag_frame demo_computeIntegrity (fun s => s) demo_getTagSrc
                demo_relative demo_join (fun _ => None) p tag annotated) as [Hframe _].
    apply Hframe; [vm_compute; reflexivity | discriminate | discriminate].
  - destruct (processTag_frame demo_computeIntegrity (fun s => s) demo_getTagSrc
                demo_relative demo_join (fun _ => None)
                (newPlugin (demo_compilation [] []) (demo_options eager) [])
                inline inline) as [_ Hnosrc].
    apply Hnosrc. left. vm_compute. reflexivity.
Defined.

(** ** The chunk walk *)

Lemma alist_get_set {K V : Type} `{EqDecision K} (k k' : K) (v : V) (l : list (K * V)) :
  alist_get k (alist_set k' v l) = if decide (k = k') then Some v else alist_get k l.
Proof.
  induction l as [|[k0 v0] l IH]; simpl.
  - done.
  - destruct (decide (k' = k0)) as [->|Hne]; simpl.
    + by destruct (decide (k = k0)).
    + destruct (decide (k = k0)) as [->|Hne'].
      * by destruct (decide (k0 = k')) as [->|].
      * exact IH.
Qed.

Lemma same_core_refl p : same_core p p.
Proof. by repeat split. Qed.

Lemma same_core_trans p q r : same_core p q -> same_core q r -> same_core p r.
Proof.
  intros (? & ? & ? & ? & ? & ? & ?) (? & ? & ? & ? & ? & ? & ?).
  repeat split; congruence.
Qed.

Lemma warnOnce_core msg p : same_core p (warnOnce msg p).
Proof. unfold warnOnce. case_bool_decide; by repeat split. Qed.

Lemma warnIfHotUpdate_core src p : same_core p (warnIfHotUpdate src p).
Proof.
  unfold warnIfHotUpdate. destruct (indexOf src _);
    [apply warnOnce_core | apply same_core_refl].
Qed.

Lemma warnAboutLongTermCaching_core info p :
  same_core p (warnAboutLongTermCaching info p).
Proof.
  unfold warnAboutLongTermCaching.
  match goal with |- context [if ?b then _ else _] => destruct b end;
    [apply warnOnce_core | apply same_core_refl].
Qed.

Lemma updateAssetInfo_core file integrity p :
  same_core p (updateAssetInfo file integrity p).
Proof.
  unfold updateAssetInfo.
  eapply same_core_trans; [apply warnAboutLongTermCaching_core|].
  by repeat split.
Qed.

Lemma updateAssetIntegrity_ext assetKey integrity p q :
  assetIntegrity q = assetIntegrity p ->
  inverseAssetIntegrity q = inverseAssetIntegrity p ->
  assetIntegrity (updateAssetIntegrity assetKey integrity q)
  = assetIntegrity (updateAssetIntegrity assetKey integrity p)
  ∧ inverseAssetIntegrity (updateAssetIntegrity assetKey integrity q)
    = inverseAssetIntegrity (updateAssetIntegrity assetKey integrity p).
Proof.
  intros Hf Hi. unfold updateAssetIntegrity. rewrite Hf.
  destruct (assetIntegrity p !! assetKey); simpl; by rewrite ?Hf, ?Hi.
Qed.

Lemma str_take_0 s : str_take 0 s = "".
Proof. by destruct s. Qed.

Lemma str_drop_0 s : str_drop 0 s = s.
Proof. by destruct s. Qed.

(** A single replacement of [len] characters at offset [pos]. *)
Lemma applyReplacements_single (pos len : nat) (text current : string) :
  applyReplacements
    [{| r_start := Z.of_nat pos; r_end := Z.of_nat pos + Z.of_nat len - 1;
        r_content := text |}] 0 current
  = str_take pos current +:+ text +:+ str_drop len (str_drop pos current).
Proof.
  cbn [applyReplacements r_start r_end r_content].
  replace (Z.of_nat pos + Z.of_nat len - 1 + 1)%Z
    with (Z.of_nat pos + Z.of_nat len)%Z by lia.
  destruct (Z.ltb_spec 0 (Z.of_nat pos)) as [Hpos|Hpos].
  - replace (Z.to_nat (Z.of_nat pos - 0)) with pos by lia.
    destruct (Z.ltb_spec (Z.of_nat pos) (Z.of_nat pos + Z.of_nat len)) as [Hlen|Hlen].
    + replace (Z.to_nat (Z.of_nat pos + Z.of_nat len - Z.of_nat pos)) with len by lia.
      done.
    + assert (len = 0) as -> by lia. by rewrite str_drop_0.
  - assert (pos = 0) as -> by lia. rewrite str_take_0, str_drop_0.
    destruct (Z.ltb_spec 0 (Z.of_nat 0 + Z.of_nat len)) as [Hlen|Hlen].
    + replace (Z.to_nat (Z.of_nat 0 + Z.of_nat len - 0)) with len by lia. done.
    + assert (len = 0) as -> by lia. by rewrite str_drop_0.
Qed.

Section ChunkWalk.

Variable computeIntegrity : list string -> string -> string.
Variable makePlaceholder : list string -> ChunkId -> string.
Variable findChunks : Chunk -> list Chunk.

Local Abbreviation processChunkFile' :=
  (processChunkFile computeIntegrity makePlaceholder).
Local Abbreviation substitute' := (substitutePlaceholders makePlaceholder).
Local Abbreviation replacements' := (placeholderReplacements makePlaceholder).

(** What one round of the [files.forEach] callback does to an asset that
    is there and readable. *)
Lemma processChunkFile_present (childChunk : Chunk) (sourcePath : string)
    (p : Plugin) (asset : Source) (oldSource : string) :
  alist_get sourcePath (assets (compilation p)) = Some asset ->
  source asset = Some oldSource ->
  let hashFuncNames := hashFuncNames (options p) in
  let newAsset :=
    ReplaceSource asset sourcePath
      (replacements' hashFuncNames (hashByChunkId p) oldSource) in
  let newSource := substitute' hashFuncNames (hashByChunkId p) oldSource in
  let integrity := computeIntegrity hashFuncNames newSource in
  exists p',
    processChunkFile' childChunk sourcePath p = Ok p'
    ∧ source newAsset = Some newSource
    ∧ assets (compilation p') = alist_set sourcePath newAsset (assets (compilation p))
    ∧ hashByChunkId p'
      = match id childChunk with
        | Some i => alist_set i integrity (hashByChunkId p)
        | None => hashByChunkId p
        end
    ∧ assetIntegrity p' = assetIntegrity (updateAssetIntegrity sourcePath integrity p)
    ∧ inverseAssetIntegrity p'
      = inverseAssetIntegrity (updateAssetIntegrity sourcePath integrity p)
    ∧ options p' = options p
    ∧ chunks (compilation p') = chunks (compilation p)
    ∧ sortedSccChunks p' = sortedSccChunks p.
Proof.
  intros Hget Hsrc hashFuncNames newAsset newSource integrity.
  assert (Hnew : source newAsset = Some newSource).
  { subst newAsset newSource. simpl. by rewrite Hsrc. }
  unfold processChunkFile. rewrite Hget. simpl. rewrite Hsrc. simpl.
  destruct (warnIfHotUpdate_core oldSource p)
    as (Ha & Hc & Ho & Hf & Hi & Hs & Hh).
  set (p1 := warnIfHotUpdate oldSource p) in *.
  unfold replaceAsset. rewrite Ha, Hget. simpl. rewrite Hsrc. simpl.
  rewrite Ho, Hh. fold hashFuncNames. fold newAsset.
  rewrite Hsrc. simpl.
  change (replaced (replacements' hashFuncNames (hashByChunkId p) oldSource) oldSource)
    with newSource.
  fold integrity.
  set (p2 := with_assets (alist_set sourcePath newAsset (assets (compilation p))) p1).
  set (p3 := match id childChunk with
             | Some i => with_hashByChunkId (alist_set i integrity (hashByChunkId p)) p2
             | None => p2
             end).
  assert (H3 : assets (compilation p3)
               = alist_set sourcePath newAsset (assets (compilation p))
               ∧ hashByChunkId p3
                 = match id childChunk with
                   | Some i => alist_set i integrity (hashByChunkId p)
                   | None => hashByChunkId p
                   end
               ∧ assetIntegrity p3 = assetIntegrity p
               ∧ inverseAssetIntegrity p3 = inverseAssetIntegrity p
               ∧ options p3 = options p
               ∧ chunks (compilation p3) = chunks (compilation p)
               ∧ sortedSccChunks p3 = sortedSccChunks p).
  { subst p3 p2. destruct (id childChunk); simpl; rewrite ?Hh; done. }
  destruct H3 as (H3a & H3h & H3f & H3i & H3o & H3c & H3s).
  set (p4 := updateAssetIntegrity sourcePath integrity p3).
  destruct (updateAssetIntegrity_frame sourcePath integrity p3)
    as (H4c & H4o & _ & _ & H4s & _ & H4h).
  destruct (updateAssetIntegrity_ext sourcePath integrity p p3 H3f H3i) as [H4f H4i].
  fold p4 in H4c, H4o, H4s, H4h, H4f, H4i.
  destruct (updateAssetInfo_core sourcePath integrity p4)
    as (H5a & H5c & H5o & H5f & H5i & H5s & H5h).
  eexists. split; [reflexivity|]. split; [done|].
  repeat split; congruence.
Qed.

Lemma processChunkFile_absent (childChunk : Chunk) (sourcePath : string) (p : Plugin) :
  alist_get sourcePath (assets (compilation p)) = None ->
  inheritedName sourcePath = false ->
  exists p', processChunkFile' childChunk sourcePath p = Ok p' ∧ same_core p p'.
Proof.
  intros Hget Hname. unfold processChunkFile. rewrite Hget, Hname.
  eexists. split; [reflexivity | apply warnOnce_core].
Qed.

Lemma processChunkFile_inherited (childChunk : Chunk) (sourcePath : string) (p : Plugin) :
  alist_get sourcePath (assets (compilation p)) = None ->
  inheritedName sourcePath = true ->
  processChunkFile' childChunk sourcePath p = Throw TypeError.
Proof. intros Hget Hname. unfold processChunkFile. by rewrite Hget, Hname. Qed.

Lemma processChunkFile_unreadable (childChunk : Chunk) (sourcePath : string)
    (p : Plugin) (asset : Source) :
  alist_get sourcePath (assets (compilation p)) = Some asset ->
  source asset = None ->
  processChunkFile' childChunk sourcePath p = Throw SourceError.
Proof. intros Hget Hsrc. unfold processChunkFile. by rewrite Hget, Hsrc. Qed.

Lemma placeholderReplacements_none hashFuncNames hashByChunkId oldSource :
  (forall i, indexOf oldSource (makePlaceholder hashFuncNames i) = None) ->
  replacements' hashFuncNames hashByChunkId oldSource = [].
Proof.
  intros Hnone. unfold placeholderReplacements.
  generalize (@nil Replacement).
  induction hashByChunkId as [|[i h] l IH]; intros acc; simpl; [done|].
  rewrite Hnone. apply IH.
Qed.

(** One marker, one replacement: the text before it, the digest, the text
    after it. *)
Lemma substitutePlaceholders_single hashFuncNames i hash oldSource :
  substitute' hashFuncNames [(i, hash)] oldSource
  = match indexOf oldSource (makePlaceholder hashFuncNames i) with
    | Some pos =>
        str_take pos oldSource +:+ hash
        +:+ str_drop (String.length (makePlaceholder hashFuncNames i))
              (str_drop pos oldSource)
    | None => oldSource
    end.
Proof.
  unfold substitutePlaceholders, placeholderReplacements. cbn [fold_left fst snd].
  destruct (indexOf oldSource (makePlaceholder hashFuncNames i)) as [pos|]; [|done].
  apply applyReplacements_single.
Qed.

(** C6 (amended). When [processChunkAssets] handles a file whose asset is
    there and readable, the placeholders are replaced first: the asset
    stored afterwards has the substituted text, and the digest of that text
    (not of the old one) is what [hashByChunkId] gets for a chunk id that is
    not null and what is recorded in the registry for an asset key not
    recorded before; an asset key recorded before keeps its entry. *)
Theorem processChunkFile_digest_after_replacement
    (childChunk : Chunk) (sourcePath : string) (p : Plugin)
    (asset : Source) (oldSource : string) :
  alist_get sourcePath (assets (compilation p)) = Some asset ->
  source asset = Some oldSource ->
  let hashFuncNames := hashFuncNames (options p) in
  let newSource := substitute' hashFuncNames (hashByChunkId p) oldSource in
  let integrity := computeIntegrity hashFuncNames newSource in
  exists p',
    processChunkFile' childChunk sourcePath p = Ok p'
    ∧ content (assets (compilation p')) sourcePath = Some newSource
    ∧ (forall i, id childChunk = Some i ->
         alist_get i (hashByChunkId p') = Some integrity)
    ∧ (assetIntegrity p !! sourcePath = None ->
         assetIntegrity p' !! sourcePath = Some integrity
         ∧ inverseAssetIntegrity p' !! integrity = Some sourcePath)
    ∧ (forall d, assetIntegrity p !! sourcePath = Some d ->
         assetIntegrity p' !! sourcePath = Some d).
Proof.
  intros Hget Hsrc hashFuncNames newSource integrity.
  destruct (processChunkFile_present childChunk sourcePath p asset oldSource Hget Hsrc)
    as (p' & Hrun & Hnew & Ha & Hh & Hf & Hi & _).
  fold hashFuncNames in Hnew, Ha, Hh, Hf, Hi. fold newSource in Hnew, Hh, Hf, Hi.
  fold integrity in Hh, Hf, Hi.
  exists p'. split; [done|]. split; [|split; [|split]].
  - unfold content. rewrite Ha, alist_get_set.
    destruct (decide (sourcePath = sourcePath)); [|done]. exact Hnew.
  - intros i Hid. rewrite Hh, Hid, alist_get_set.
    by destruct (decide (i = i)).
  - intros Hnone. rewrite Hf, Hi.
    destruct (updateAssetIntegrity_absent sourcePath integrity p Hnone) as [-> ->].
    by rewrite !lookup_insert_eq.
  - intros d Hd. rewrite Hf. by apply updateAssetIntegrity_keeps.
Qed.

(** *** Contents under the walk *)

Lemma forEach_invariant {A S : Type} (I : S -> Prop) (f : A -> S -> result S)
    (l : list A) :
  (forall a s s', f a s = Ok s' -> I s -> I s') ->
  forall s s', forEach f l s = Ok s' -> I s -> I s'.
Proof.
  intros Hstep. induction l as [|a l IH]; intros s s'; simpl.
  - by intros [= <-].
  - destruct (f a s) as [s1|e] eqn:Hf; simpl; [|done].
    intros Hrest Hs. eapply IH; [done|]. by eapply Hstep.
Qed.

Lemma processChunkFile_sameContents (p0 : Plugin) childChunk sourcePath q q' :
  noPlaceholders makePlaceholder p0 ->
  processChunkFile' childChunk sourcePath q = Ok q' ->
  sameContents p0 q -> sameContents p0 q'.
Proof.
  intros Hno Hrun [Ho Hc].
  destruct (alist_get sourcePath (assets (compilation q))) as [asset|] eqn:Hget.
  - destruct (source asset) as [oldSource|] eqn:Hsrc.
    + destruct (processChunkFile_present childChunk sourcePath q asset oldSource Hget Hsrc)
        as (q1 & Hrun1 & Hnew & Ha & _ & _ & _ & Ho1 & _).
      rewrite Hrun in Hrun1. injection Hrun1 as <-.
      split; [congruence|]. intros k. rewrite <- Hc.
      unfold content. rewrite Ha, alist_get_set.
      destruct (decide (k = sourcePath)) as [->|]; [|done].
      rewrite Hget. simpl. rewrite Hsrc. simpl.
      rewrite placeholderReplacements_none; [done|].
      intros i. rewrite Ho. apply (Hno sourcePath).
      rewrite <- Hc. unfold content. rewrite Hget. simpl. exact Hsrc.
    + by rewrite (processChunkFile_unreadable childChunk sourcePath q asset) in Hrun.
  - destruct (inheritedName sourcePath) eqn:Hname;
      [by rewrite (processChunkFile_inherited childChunk sourcePath q Hget Hname) in Hrun|].
    destruct (processChunkFile_absent childChunk sourcePath q Hget Hname)
      as (q1 & Hrun1 & Ha & _ & Ho1 & _).
    rewrite Hrun in Hrun1. injection Hrun1 as <-.
    split; [congruence|]. intros k. rewrite <- Hc. unfold content. by rewrite Ha.
Qed.

Lemma processChunkAssets_sameContents (p0 : Plugin) childChunk q q' :
  noPlaceholders makePlaceholder p0 ->
  processChunkAssets computeIntegrity makePlaceholder childChunk q = Ok q' ->
  sameContents p0 q -> sameContents p0 q'.
Proof.
  intros Hno. unfold processChunkAssets.
  apply (forEach_invariant (sameContents p0)).
  intros sourcePath s s'. by apply processChunkFile_sameContents.
Qed.

Lemma chunkWalk_sameContents (p p' : Plugin) :
  noPlaceholders makePlaceholder p ->
  chunkWalk computeIntegrity makePlaceholder findChunks p = Ok p' ->
  sameContents p p'.
Proof.
  intros Hno. unfold chunkWalk. intros Hrun.
  assert (H0 : sameContents p p) by (by split).
  destruct (hashLoading (options p)).
  - revert Hrun H0. apply (forEach_invariant (sameContents p)).
    intros chunk s s'. unfold processChunk.
    apply (forEach_invariant (sameContents p)).
    intros c t t'. by apply processChunkAssets_sameContents.
  - revert Hrun H0. apply (forEach_invariant (sameContents p)).
    intros scc s s'.
    apply (forEach_invariant (sameContents p)).
    intros c t t'. by apply processChunkAssets_sameContents.
Qed.

(** C2 (amended). In lazy mode the chunk walk goes through the sorted
    components and handles each file of each member chunk as in eager
    mode: the digest is computed and recorded, and before that the
    placeholders of the chunks already in [hashByChunkId] are replaced in
    the asset's text.  The walk leaves the texts as they are when no
    asset has a chunk placeholder in it. *)
Theorem lazy_chunkWalk_replaces_placeholders (p : Plugin) :
  hashLoading (options p) = lazy ->
  chunkWalk computeIntegrity makePlaceholder findChunks p
  = forEach (fun scc q =>
               forEach (processChunkAssets computeIntegrity makePlaceholder)
                       (nodes scc) q)
            (sortedSccChunks p) p
  ∧ (forall q childChunk sourcePath asset oldSource,
       alist_get sourcePath (assets (compilation q)) = Some asset ->
       source asset = Some oldSource ->
       let hashFuncNames := hashFuncNames (options q) in
       let newSource := substitute' hashFuncNames (hashByChunkId q) oldSource in
       let integrity := computeIntegrity hashFuncNames newSource in
       exists q',
         processChunkFile' childChunk sourcePath q = Ok q'
         ∧ content (assets (compilation q')) sourcePath = Some newSource
         ∧ assetIntegrity q' = assetIntegrity (updateAssetIntegrity sourcePath integrity q)
         ∧ inverseAssetIntegrity q'
           = inverseAssetIntegrity (updateAssetIntegrity sourcePath integrity q))
  ∧ (forall p',
       chunkWalk computeIntegrity makePlaceholder findChunks p = Ok p' ->
       noPlaceholders makePlaceholder p ->
       forall k, content (assets (compilation p')) k = content (assets (compilation p)) k).
Proof.
  intros Hlazy. split; [|split].
  - unfold chunkWalk. by rewrite Hlazy.
  - intros q childChunk sourcePath asset oldSource Hget Hsrc hashFuncNames newSource integrity.
    destruct (processChunkFile_present childChunk sourcePath q asset oldSource Hget Hsrc)
      as (q' & Hrun & Hnew & Ha & _ & Hf & Hi & _).
    exists q'. split; [done|]. split; [|done].
    unfold content. rewrite Ha, alist_get_set.
    destruct (decide (sourcePath = sourcePath)); [|done]. exact Hnew.
  - intros p' Hrun Hno. by apply chunkWalk_sameContents.
Qed.

End ChunkWalk.

(** The scenario: the marker of chunk 7 in [load(...)] becomes the digest recorded for chunk 7. *)
Lemma processChunkFile_digest_after_replacement_witness :
  let p := with_hashByChunkId [(IdNum 7, "sha256-AAAA")]
             (newPlugin
                (demo_compilation [("main.js", HostSource (Some "load(%%SRI0-CHUNK7%%)"))] [])
                (demo_options eager) []) in
  let main := {| id := Some (IdNum 0); files := ["main.js"] |} in
  exists p',
    processChunkFile demo_computeIntegrity demo_makePlaceholder main "main.js" p = Ok p'
    ∧ content (assets (compilation p')) "main.js" = Some "load(sha256-AAAA)"
    ∧ alist_get (IdNum 0) (hashByChunkId p')
      = Some (demo_computeIntegrity ["sha256"] "load(sha256-AAAA)")
    ∧ assetIntegrity p' !! "main.js"
      = Some (demo_computeIntegrity ["sha256"] "load(sha256-AAAA)").
Proof.
  intros p main.
  destruct (processChunkFile_digest_after_replacement demo_computeIntegrity
              demo_makePlaceholder main "main.js" p
              (HostSource (Some "load(%%SRI0-CHUNK7%%)")) "load(%%SRI0-CHUNK7%%)"
              eq_refl eq_refl)
    as (p' & Hrun & Hcontent & Hid & Hnew & _).
  exists p'. split; [exact Hrun|]. split; [exact Hcontent|]. split.
  - exact (Hid (IdNum 0) eq_refl).
  - exact (proj1 (Hnew eq_refl)).
Defined.

(** A lazy build of one chunk whose text has no marker. *)
Lemma lazy_chunkWalk_replaces_placeholders_witness :
  let seven := {| id := Some (IdNum 7); files := ["7.js"] |} in
  let p := beforeRuntimeRequirements demo_getChunkToManifestMap
             (newPlugin (demo_compilation [("7.js", HostSource (Some "seven"))] [seven])
                (demo_options lazy) []) in
  (exists q',
     processChunkFile demo_computeIntegrity demo_makePlaceholder seven "7.js" p = Ok q'
     ∧ content (assets (compilation q')) "7.js" = Some "seven")
  ∧ exists p',
      chunkWalk demo_computeIntegrity demo_makePlaceholder (fun c => [c]) p = Ok p'
      ∧ forall k, content (assets (compilation p')) k = content (assets (compilation p)) k.
Proof.
  intros seven p.
  destruct (lazy_chunkWalk_replaces_placeholders demo_computeIntegrity
              demo_makePlaceholder (fun c => [c]) p eq_refl) as (_ & Hfile & Hwalk).
  split.
  - destruct (Hfile p seven "7.js" (HostSource (Some "seven")) "seven" eq_refl eq_refl)
      as (q' & Hrun & Hcontent & _).
    exists q'. split; [exact Hrun | exact Hcontent].
  - assert (Hrun : exists p',
               chunkWalk demo_computeIntegrity demo_makePlaceholder (fun c => [c]) p = Ok p').
    { eexists. vm_compute. reflexivity. }
    destruct Hrun as [p' Hrun]. exists p'. split; [exact Hrun|].
    intros k. apply Hwalk; [exact Hrun|].
    intros k' src i Hc. unfold content in Hc. simpl in Hc.
    destruct (decide (k' = "7.js")); [|discriminate Hc].
    injection Hc as <-. reflexivity.
Defined.

(** C2, as stated, fails: in lazy mode, once chunk 7 has been handled, the
    walk replaces its placeholder in the text of the chunk that loads it. *)
Lemma lazy_chunkWalk_counterexample :
  let seven := {| id := Some (IdNum 7); files := ["7.js"] |} in
  let one := {| id := Some (IdNum 1); files := ["1.js"] |} in
  let p := beforeRuntimeRequirements demo_getChunkToManifestMap
             (newPlugin
                (demo_compilation
                   [("7.js", HostSource (Some "seven"));
                    ("1.js", HostSource (Some "load(%%SRI0-CHUNK7%%)"))]
                   [seven; one])
                (demo_options lazy) []) in
  hashLoading (options p) = lazy
  ∧ content (assets (compilation p)) "1.js" = Some "load(%%SRI0-CHUNK7%%)"
  ∧ exists p',
      processAssets demo_computeIntegrity demo_makePlaceholder (fun c => [c]) p = Ok p'
      ∧ content (assets (compilation p')) "1.js"
        = Some ("load(" +:+ demo_computeIntegrity ["sha256"] "seven" +:+ ")")
      ∧ content (assets (compilation p')) "1.js" ≠ content (assets (compilation p)) "1.js".
Proof.
  intros seven one p. split; [reflexivity|]. split; [reflexivity|].
  eexists. split; [vm_compute; reflexivity|].
  split; [vm_compute; reflexivity|]. vm_compute. discriminate.
Qed.

(** C6, as stated, fails: with two chunks that load each other, eager mode
    handles [b.js] twice; the second round replaces the placeholder of chunk
    [a] in it, and the registry still has the digest of the text as it was
    before. *)
Lemma processAssets_cycle_counterexample :
  let original := "b:%%SRI0-CHUNKa%%" in
  let p := newPlugin
             (demo_compilation
                [("a.js", HostSource (Some "a:%%SRI0-CHUNKb%%"));
                 ("b.js", HostSource (Some original))]
                [demo_chunkA; demo_chunkB])
             (demo_options eager) [] in
  exists p' final,
    processAssets demo_computeIntegrity demo_makePlaceholder demo_cycle_findChunks p = Ok p'
    ∧ content (assets (compilation p')) "b.js" = Some final
    ∧ final = "b:" +:+ demo_computeIntegrity ["sha256"]
                         ("a:" +:+ demo_computeIntegrity ["sha256"] original)
    ∧ assetIntegrity p' !! "b.js" = Some (demo_computeIntegrity ["sha256"] original)
    ∧ assetIntegrity p' !! "b.js" ≠ Some (demo_computeIntegrity ["sha256"] final).
Proof.
  intros original p. eexists. eexists.
  split; [vm_compute; reflexivity|].
  split; [vm_compute; reflexivity|].
  split; [vm_compute; reflexivity|].
  split; [vm_compute; reflexivity|].
  vm_compute. discriminate.
Qed.

(** * Further properties of the class *)

Set Warnings "-clear-no-such-hyp".

(** ** The registry under record and rehash *)

Lemma updateAssetIntegrity_dom assetKey integrity p :
  dom (assetIntegrity (updateAssetIntegrity assetKey integrity p))
  = {[assetKey]} ∪ dom (assetIntegrity p).
Proof.
  unfold updateAssetIntegrity.
  destruct (assetIntegrity p !! assetKey) as [d|] eqn:Hk; simpl.
  - assert (assetKey ∈ dom (assetIntegrity p)) by (apply elem_of_dom; eauto).
    set_solver.
  - by rewrite dom_insert_L.
Qed.

Section RegistryKeys.

Variable computeIntegrity : list string -> string -> string.

(** A successful rehash, written out. *)
Lemma updateHash_success (input0 oldHash assetKey : string) (p : Plugin) :
  inverseAssetIntegrity p !! oldHash = Some assetKey ->
  assetKey ≠ "" ->
  let newIntegrity := computeIntegrity (hashFuncNames (options p)) input0 in
  updateHash computeIntegrity [input0] oldHash p
  = (with_registry (<[assetKey := newIntegrity]> (delete assetKey (assetIntegrity p)))
                   (<[newIntegrity := assetKey]> (delete oldHash (inverseAssetIntegrity p)))
                   p,
     Some newIntegrity).
Proof.
  intros Hold Hkey newIntegrity. unfold updateHash. rewrite Hold.
  destruct assetKey as [|a assetKey]; [done|]. simpl.
  unfold updateAssetIntegrity. simpl. by rewrite lookup_delete_eq.
Qed.

Lemma updateHash_dom (input : list string) (oldHash : string) (p : Plugin) :
  inverse_backed p ->
  dom (assetIntegrity (fst (updateHash computeIntegrity input oldHash p)))
  = dom (assetIntegrity p).
Proof.
  intros Hinv. unfold updateHash.
  destruct (inverseAssetIntegrity p !! oldHash) as [assetKey|] eqn:Hold; [|done].
  destruct input as [|input0 [|]]; try done.
  destruct (truthy assetKey); [|done]. simpl.
  rewrite updateAssetIntegrity_dom. simpl. rewrite dom_delete_L.
  assert (assetKey ∈ dom (assetIntegrity p)).
  { apply elem_of_dom. rewrite (Hinv _ _ Hold). eauto. }
  apply set_eq. intros k. rewrite elem_of_union, elem_of_singleton, elem_of_difference,
    elem_of_singleton.
  destruct (decide (k = assetKey)) as [->|]; naive_solver.
Qed.

Lemma registryCalls_dom (calls : list RegistryCall) : forall p,
  inverse_backed p ->
  dom (assetIntegrity (registryCalls computeIntegrity calls p))
  = dom (assetIntegrity p) ∪ recordedKeys calls.
Proof.
  induction calls as [|c calls IH]; intros p Hinv; simpl.
  - set_solver.
  - destruct c as [k d|input oldHash]; simpl.
    + rewrite IH by (by apply updateAssetIntegrity_inverse_backed).
      rewrite updateAssetIntegrity_dom. set_solver.
    + rewrite IH by (by apply updateHash_inverse_backed).
      by rewrite updateHash_dom.
Qed.

(** X1. On a new plugin, the asset keys that have a digest after any run of
    [updateAssetIntegrity] and [updateHash] calls are exactly the keys that
    were passed to [updateAssetIntegrity]: a rehash neither adds a key nor
    loses one. *)
Theorem registryCalls_keys (calls : list RegistryCall) (c : Compilation)
    (o : SubresourceIntegrityPluginResolvedOptions) (r : list string) :
  dom (assetIntegrity (registryCalls computeIntegrity calls (newPlugin c o r)))
  = recordedKeys calls.
Proof.
  rewrite registryCalls_dom by apply newPlugin_inverse_backed.
  simpl. rewrite dom_empty_L. set_solver.
Qed.

(** X2. After a rehash that succeeded, the new digest is the handle of the
    asset: a further rehash by the new digest succeeds and moves the asset
    key on to the next digest, while the old digest, when it differs from
    the new one, is unknown and a rehash by it does nothing. *)
Theorem updateHash_chain (input0 input1 oldHash assetKey : string)
    (input : list string) (p : Plugin) :
  inverseAssetIntegrity p !! oldHash = Some assetKey ->
  assetKey ≠ "" ->
  let hashFuncNames := hashFuncNames (options p) in
  let newIntegrity := computeIntegrity hashFuncNames input0 in
  let p1 := fst (updateHash computeIntegrity [input0] oldHash p) in
  let p2 := fst (updateHash computeIntegrity [input1] newIntegrity p1) in
  snd (updateHash computeIntegrity [input1] newIntegrity p1)
  = Some (computeIntegrity hashFuncNames input1)
  ∧ assetIntegrity p2 !! assetKey = Some (computeIntegrity hashFuncNames input1)
  ∧ inverseAssetIntegrity p2 !! computeIntegrity hashFuncNames input1 = Some assetKey
  ∧ (newIntegrity ≠ oldHash ->
     updateHash computeIntegrity input oldHash p1 = (p1, None)).
Proof.
  intros Hold Hkey hashFuncNames newIntegrity p1 p2.
  assert (H1 : inverseAssetIntegrity p1 !! newIntegrity = Some assetKey).
  { subst p1. rewrite (updateHash_success input0 oldHash assetKey p Hold Hkey).
    simpl. by rewrite lookup_insert_eq. }
  assert (Ho : options p1 = options p).
  { subst p1. by rewrite (updateHash_success input0 oldHash assetKey p Hold Hkey). }
  pose proof (updateHash_success input1 newIntegrity assetKey p1 H1 Hkey) as H2.
  simpl in H2. rewrite Ho in H2. fold hashFuncNames in H2.
  split; [by rewrite H2|]. subst p2. rewrite H2. simpl.
  split; [by rewrite lookup_insert_eq|]. split; [by rewrite lookup_insert_eq|].
  intros Hne. unfold updateHash.
  assert (Hgone : inverseAssetIntegrity p1 !! oldHash = None).
  { subst p1. rewrite (updateHash_success input0 oldHash assetKey p Hold Hkey).
    simpl. rewrite lookup_insert_ne by done. by rewrite lookup_delete_eq. }
  by rewrite Hgone.
Qed.

End RegistryKeys.

(** A record, a rehash of its digest, and a rehash of the digest that replaced it. *)
Lemma updateHash_chain_witness :
  let p := updateAssetIntegrity "main.js" "sha256-AAAA"
             (newPlugin (demo_compilation [] []) (demo_options eager) []) in
  let p1 := fst (updateHash demo_computeIntegrity ["xyz"] "sha256-AAAA" p) in
  snd (updateHash demo_computeIntegrity ["uvw"]
         (demo_computeIntegrity ["sha256"] "xyz") p1)
  = Some (demo_computeIntegrity ["sha256"] "uvw")
  ∧ updateHash demo_computeIntegrity ["uvw"] "sha256-AAAA" p1 = (p1, None).
Proof.
  intros p p1.
  destruct (updateHash_chain demo_computeIntegrity "xyz" "uvw" "sha256-AAAA" "main.js"
              ["uvw"] p) as (Hnext & _ & _ & Hold).
  - vm_compute. reflexivity.
  - discriminate.
  - split; [exact Hnext|]. apply Hold. vm_compute. discriminate.
Defined.

(** ** Fingerprints in the asset info *)

Lemma dedup_first_elem (l : list string) : forall seen x,
  x ∈ dedup_first seen l <-> x ∈ l ∧ x ∉ seen.
Proof.
  induction l as [|y l IH]; intros seen x; simpl.
  - rewrite elem_of_nil. tauto.
  - case_bool_decide as Hy.
    + rewrite IH, elem_of_cons. split; [tauto|].
      intros [[->|Hx] Hn]; [done | tauto].
    + rewrite !elem_of_cons, IH, elem_of_cons. split.
      * intros [->|[Hx Hn]]; [tauto|]. split; [tauto|]. tauto.
      * intros [[->|Hx] Hn]; [tauto|].
        destruct (decide (x = y)) as [->|Hne]; [tauto|]. right. tauto.
Qed.

Lemma dedup_first_NoDup (l : list string) : forall seen, NoDup (dedup_first seen l).
Proof.
  induction l as [|y l IH]; intros seen; simpl.
  - constructor.
  - case_bool_decide as Hy; [apply IH|].
    constructor; [|apply IH].
    rewrite dedup_first_elem, elem_of_cons. tauto.
Qed.

Lemma dedup_first_fresh (l : list string) : forall seen,
  NoDup l -> (forall x, x ∈ l -> x ∉ seen) -> dedup_first seen l = l.
Proof.
  induction l as [|y l IH]; intros seen Hnd Hfresh; simpl; [done|].
  apply NoDup_cons in Hnd as [Hy Hnd].
  rewrite bool_decide_eq_false_2 by (apply Hfresh, elem_of_cons; tauto).
  f_equal. apply IH; [done|].
  intros x Hx. rewrite elem_of_cons. intros [->|Hs]; [done|].
  apply (Hfresh x); [apply elem_of_cons; tauto | done].
Qed.

Lemma dedup_first_snoc_seen (l : list string) : forall seen i,
  i ∈ l ∨ i ∈ seen -> dedup_first seen (l ++ [i]) = dedup_first seen l.
Proof.
  induction l as [|y l IH]; intros seen i Hi; simpl.
  - destruct Hi as [Hi|Hi]; [by apply elem_of_nil in Hi|].
    by rewrite bool_decide_eq_true_2.
  - case_bool_decide as Hy.
    + apply IH. destruct Hi as [Hi|Hi]; [|tauto].
      apply elem_of_cons in Hi as [->|Hi]; tauto.
    + f_equal. apply IH. rewrite elem_of_cons.
      destruct Hi as [Hi|Hi]; [|tauto].
      apply elem_of_cons in Hi as [->|Hi]; tauto.
Qed.

(** X3. The [contenthash] written back by [processChunkAssets] always holds
    the new integrity value and every fingerprint that was there before.
    Starting from an array, the result has no repeated entry and handling
    the asset again with the same integrity value changes nothing; starting
    from no [contenthash], the second round stores the value twice. *)
Theorem extendContenthash_members (ch : HashField) (integrity : string) :
  integrity ≠ "" ->
  integrity ∈ hash_members (extendContenthash ch integrity)
  ∧ (forall h, h ∈ hash_members ch -> h ∈ hash_members (extendContenthash ch integrity))
  ∧ (forall l, ch = HArray l ->
       NoDup (hash_members (extendContenthash ch integrity))
       ∧ extendContenthash (extendContenthash ch integrity) integrity
         = extendContenthash ch integrity)
  ∧ extendContenthash (extendContenthash HUndefined integrity) integrity
    = HArray [integrity; integrity].
Proof.
  intros Hne.
  assert (Ht : truthy integrity = true) by (by destruct integrity).
  split; [|split; [|split]].
  - destruct ch as [|s|l]; simpl.
    + rewrite Ht. apply list_elem_of_singleton. done.
    + destruct (truthy s); simpl; rewrite ?Ht; set_solver.
    + apply dedup_first_elem. split; [|apply not_elem_of_nil].
      apply elem_of_app. right. by apply list_elem_of_singleton.
  - intros h Hh. destruct ch as [|s|l]; simpl in *.
    + by apply elem_of_nil in Hh.
    + destruct (truthy s); simpl; [set_solver | by apply elem_of_nil in Hh].
    + apply dedup_first_elem. split; [|apply not_elem_of_nil].
      apply elem_of_app. by left.
  - intros l ->. simpl. split; [apply dedup_first_NoDup|]. f_equal.
    rewrite dedup_first_snoc_seen.
    + apply dedup_first_fresh; [apply dedup_first_NoDup|].
      intros x _. apply not_elem_of_nil.
    + left. apply dedup_first_elem. split; [|apply not_elem_of_nil].
      apply elem_of_app. right. by apply list_elem_of_singleton.
  - simpl. by rewrite Ht.
Qed.

(** An asset with two fingerprints gets the integrity value as a third. *)
Lemma extendContenthash_members_witness :
  "sha256-CCCC" ∈ hash_members (extendContenthash (HArray ["abc"; "def"]) "sha256-CCCC")
  ∧ "def" ∈ hash_members (extendContenthash (HArray ["abc"; "def"]) "sha256-CCCC")
  ∧ NoDup (hash_members (extendContenthash (HArray ["abc"; "def"]) "sha256-CCCC")).
Proof.
  destruct (extendContenthash_members (HArray ["abc"; "def"]) "sha256-CCCC")
    as (Hin & Hold & Harr & _); [discriminate|].
  split; [exact Hin|]. split.
  - apply Hold. simpl. set_solver.
  - exact (proj1 (Harr ["abc"; "def"] eq_refl)).
Defined.

Lemma warnOnce_compilation msg p : compilation (warnOnce msg p) = compilation p.
Proof. unfold warnOnce. by case_bool_decide. Qed.

Lemma warnIfHotUpdate_compilation src p :
  compilation (warnIfHotUpdate src p) = compilation p.
Proof.
  unfold warnIfHotUpdate. destruct (indexOf src _); [apply warnOnce_compilation | done].
Qed.

Lemma warnAboutLongTermCaching_compilation info p :
  compilation (warnAboutLongTermCaching info p) = compilation p.
Proof.
  unfold warnAboutLongTermCaching.
  match goal with |- context [if ?b then _ else _] => destruct b end;
    [apply warnOnce_compilation | done].
Qed.

Section AssetInfo.

Variable computeIntegrity : list string -> string -> string.
Variable makePlaceholder : list string -> ChunkId -> string.

(** X4. Handling a file of a chunk rewrites the asset info of that file
    only: its [contenthash] is extended by the integrity value just
    computed, its [fullhash], [chunkhash] and [modulehash] stay, and the
    asset infos of all other files are as before. *)
Theorem processChunkFile_assetInfo (childChunk : Chunk) (sourcePath : string)
    (p : Plugin) (asset : Source) (oldSource : string) :
  alist_get sourcePath (assets (compilation p)) = Some asset ->
  source asset = Some oldSource ->
  let hashFuncNames := hashFuncNames (options p) in
  let integrity :=
    computeIntegrity hashFuncNames
      (substitutePlaceholders makePlaceholder hashFuncNames (hashByChunkId p) oldSource) in
  let before := default EMPTY_ASSET_INFO (assetsInfo (compilation p) !! sourcePath) in
  exists p' after,
    processChunkFile computeIntegrity makePlaceholder childChunk sourcePath p = Ok p'
    ∧ assetsInfo (compilation p') !! sourcePath = Some after
    ∧ contenthash after = extendContenthash (contenthash before) integrity
    ∧ fullhash after = fullhash before
    ∧ chunkhash after = chunkhash before
    ∧ modulehash after = modulehash before
    ∧ forall k, k ≠ sourcePath ->
        assetsInfo (compilation p') !! k = assetsInfo (compilation p) !! k.
Proof.
  intros Hget Hsrc hashFuncNames integrity before.
  unfold processChunkFile. rewrite Hget. simpl. rewrite Hsrc. simpl.
  pose proof (warnIfHotUpdate_compilation oldSource p) as Hc1.
  destruct (warnIfHotUpdate_core oldSource p) as (_ & _ & Ho1 & _ & _ & _ & Hh1).
  set (p1 := warnIfHotUpdate oldSource p) in *.
  unfold replaceAsset. rewrite Hc1, Hget. simpl. rewrite Hsrc. simpl.
  rewrite Ho1, Hh1. fold hashFuncNames. rewrite Hsrc. simpl.
  change (replaced (placeholderReplacements makePlaceholder hashFuncNames
                      (hashByChunkId p) oldSource) oldSource)
    with (substitutePlaceholders makePlaceholder hashFuncNames (hashByChunkId p) oldSource).
  fold integrity.
  match goal with
  | |- context [updateAssetIntegrity sourcePath integrity ?q] => set (p3 := q)
  end.
  assert (H3 : assetsInfo (compilation p3) = assetsInfo (compilation p)).
  { subst p3. destruct (id childChunk); simpl; by rewrite Hc1. }
  destruct (updateAssetIntegrity_frame sourcePath integrity p3) as (H4 & _).
  set (p4 := updateAssetIntegrity sourcePath integrity p3) in *.
  eexists. eexists. split; [reflexivity|].
  unfold updateAssetInfo. simpl.
  rewrite warnAboutLongTermCaching_compilation, H4, H3.
  split; [apply lookup_insert_eq|].
  repeat split; try reflexivity.
  intros k Hk. by rewrite lookup_insert_ne.
Qed.

End AssetInfo.

(** An asset with a [fullhash] and one [contenthash] keeps both. *)
Lemma processChunkFile_assetInfo_witness :
  let c := {| assets := [("main.js", HostSource (Some "main"))];
              assetsInfo := {[ "main.js" := {| fullhash := HString "f00d";
                                               chunkhash := HUndefined;
                                               modulehash := HUndefined;
                                               contenthash := HString "abc" |} ]};
              chunks := []; crossOriginLoading := COUnset;
              realContentHash := true; outputPath := "/dist" |} in
  let p := newPlugin c (demo_options eager) [] in
  exists p' after,
    processChunkFile demo_computeIntegrity demo_makePlaceholder
      {| id := Some (IdNum 0); files := ["main.js"] |} "main.js" p = Ok p'
    ∧ assetsInfo (compilation p') !! "main.js" = Some after
    ∧ contenthash after = HArray ["abc"; demo_computeIntegrity ["sha256"] "main"]
    ∧ fullhash after = HString "f00d".
Proof.
  intros c p.
  destruct (processChunkFile_assetInfo demo_computeIntegrity demo_makePlaceholder
              {| id := Some (IdNum 0); files := ["main.js"] |} "main.js" p
              (HostSource (Some "main")) "main" eq_refl eq_refl)
    as (p' & after & Hrun & Hinfo & Hch & Hfh & _).
  exists p', after. split; [exact Hrun|]. split; [exact Hinfo|].
  split; [rewrite Hch; vm_compute; reflexivity | rewrite Hfh; vm_compute; reflexivity].
Defined.

(** ** Placeholder replacement *)

Lemma str_take_drop (n : nat) : forall s, str_take n s +:+ str_drop n s = s.
Proof.
  induction n as [|n IH]; intros s.
  - by rewrite str_take_0, str_drop_0.
  - destruct s as [|c s]; [done|].
    change (String c (str_take n s +:+ str_drop n s) = String c s).
    f_equal. apply IH.
Qed.

Lemma substring_take_drop (m n : nat) : forall s,
  String.substring m n s = str_take n (str_drop m s).
Proof.
  induction m as [|m IH]; intros s.
  - rewrite str_drop_0. revert s. induction n as [|n IHn]; intros s.
    + by destruct s.
    + destruct s as [|c s]; simpl; [done|]. by rewrite IHn.
  - destruct s as [|c s]; simpl.
    + by destruct n.
    + apply IH.
Qed.

Lemma length_append (a b : string) :
  String.length (a +:+ b) = String.length a + String.length b.
Proof.
  induction a as [|c a IH]; [done|].
  change (S (String.length (a +:+ b)) = S (String.length a) + String.length b).
  by rewrite IH.
Qed.

Section FirstOccurrence.

Variable makePlaceholder : list string -> ChunkId -> string.

(** X5. With one chunk in the hash table, [replaceAsset] rewrites the first
    occurrence of that chunk's marker and nothing else: the old text is
    [pre + marker + post] with no occurrence of the marker starting inside
    [pre], and the new text is [pre + digest + post]; a digest as long as
    the marker leaves the length of the text as it was.  A text without the
    marker is stored unchanged. *)
Theorem substitutePlaceholders_first_occurrence
    (hashFuncNames : list string) (i : ChunkId) (hash oldSource : string) :
  let marker := makePlaceholder hashFuncNames i in
  let newSource := substitutePlaceholders makePlaceholder hashFuncNames [(i, hash)] oldSource in
  (forall pos,
     indexOf oldSource marker = Some pos ->
     let pre := str_take pos oldSource in
     let post := str_drop (String.length marker) (str_drop pos oldSource) in
     oldSource = pre +:+ marker +:+ post
     ∧ newSource = pre +:+ hash +:+ post
     ∧ (forall q, q < pos ->
          String.substring q (String.length marker) oldSource ≠ marker)
     ∧ (String.length hash = String.length marker ->
        String.length newSource = String.length oldSource))
  ∧ (indexOf oldSource marker = None -> newSource = oldSource).
Proof.
  intros marker newSource. subst newSource.
  rewrite substitutePlaceholders_single. fold marker. split.
  - intros pos Hpos pre post. rewrite Hpos.
    assert (Hold : oldSource = pre +:+ marker +:+ post).
    { pose proof (String.index_correct1 _ _ _ _ Hpos) as Hsub.
      rewrite substring_take_drop in Hsub.
      subst pre post. rewrite <- (str_take_drop pos oldSource) at 1. f_equal.
      rewrite <- (str_take_drop (String.length marker) (str_drop pos oldSource)) at 1.
      by rewrite Hsub. }
    split; [exact Hold|]. split; [done|]. split.
    + intros q Hq.
      apply (String.index_correct2 0 pos marker oldSource Hpos q); [apply Nat.le_0_l | exact Hq].
    + intros Hlen. pose proof (f_equal String.length Hold) as Hl.
      rewrite !length_append in Hl. rewrite !length_append.
      unfold pre, post in Hl. lia.
  - by intros ->.
Qed.

End FirstOccurrence.

(** A text with two occurrences of the marker of chunk 7, and a plain one. *)
Lemma substitutePlaceholders_first_occurrence_witness :
  let text := "a(%%SRI0-CHUNK7%%);b(%%SRI0-CHUNK7%%)" in
  substitutePlaceholders demo_makePlaceholder ["sha256"] [(IdNum 7, "sha256-AAAA")] text
  = "a(sha256-AAAA);b(%%SRI0-CHUNK7%%)"
  ∧ String.substring 1 15 text ≠ "%%SRI0-CHUNK7%%"
  ∧ String.length
      (substitutePlaceholders demo_makePlaceholder ["sha256"]
         [(IdNum 7, "sha256-AAAAAAAA")] text)
    = String.length text
  ∧ substitutePlaceholders demo_makePlaceholder ["sha256"] [(IdNum 7, "sha256-AAAA")]
      "plain" = "plain".
Proof.
  intros text.
  destruct (substitutePlaceholders_first_occurrence demo_makePlaceholder ["sha256"]
              (IdNum 7) "sha256-AAAA" text) as [Hfirst _].
  destruct (substitutePlaceholders_first_occurrence demo_makePlaceholder ["sha256"]
              (IdNum 7) "sha256-AAAAAAAA" text) as [Hsame _].
  destruct (substitutePlaceholders_first_occurrence demo_makePlaceholder ["sha256"]
              (IdNum 7) "sha256-AAAA" "plain") as [_ Hnone].
  destruct (Hfirst 2 eq_refl) as (_ & Hnew & Hbefore & _).
  destruct (Hsame 2 eq_refl) as (_ & _ & _ & Hlen).
  split; [exact Hnew|]. split; [apply (Hbefore 1); lia|].
  split; [apply Hlen; reflexivity | apply Hnone; reflexivity].
Defined.

(** ** The chunk walk, file by file *)

Lemma beforeRuntimeRequirements_hashByChunkId gctm p :
  hashByChunkId (beforeRuntimeRequirements gctm p) = [].
Proof.
  unfold beforeRuntimeRequirements.
  destruct (hashLoading (options p)); [| destruct (gctm _)]; done.
Qed.

Lemma chunkFiles_cons childChunk f fs :
  files childChunk = f :: fs -> chunkFiles childChunk = f :: fs.
Proof. intros H. unfold chunkFiles. by rewrite H. Qed.

Section FileByFile.

Variable computeIntegrity : list string -> string -> string.
Variable makePlaceholder : list string -> ChunkId -> string.
Variable findChunks : Chunk -> list Chunk.
Variable getChunkToManifestMap :
  list Chunk -> list StronglyConnectedComponent * list (Chunk * list Chunk).

(** X6. The first file handled after [beforeRuntimeRequirements] is hashed
    as it is, whatever markers it has in it: the hash table is empty, so
    its text is stored unchanged, the table then holds the digest of that
    text for the chunk and nothing else, and so does the registry for an
    asset key without entry. *)
Theorem processChunkFile_after_reset (childChunk : Chunk) (sourcePath : string)
    (p : Plugin) (asset : Source) (oldSource : string) :
  alist_get sourcePath (assets (compilation p)) = Some asset ->
  source asset = Some oldSource ->
  let integrity := computeIntegrity (hashFuncNames (options p)) oldSource in
  exists p',
    processChunkFile computeIntegrity makePlaceholder childChunk sourcePath
      (beforeRuntimeRequirements getChunkToManifestMap p) = Ok p'
    ∧ content (assets (compilation p')) sourcePath = Some oldSource
    ∧ (forall i, id childChunk = Some i -> hashByChunkId p' = [(i, integrity)])
    ∧ (assetIntegrity p !! sourcePath = None ->
       assetIntegrity p' !! sourcePath = Some integrity).
Proof.
  intros Hget Hsrc integrity.
  destruct (beforeRuntimeRequirements_registry getChunkToManifestMap p)
    as (Hf & Hi & Hc & Ho & _).
  pose proof (beforeRuntimeRequirements_hashByChunkId getChunkToManifestMap p) as Hh.
  set (p0 := beforeRuntimeRequirements getChunkToManifestMap p) in *.
  destruct (processChunkFile_present computeIntegrity makePlaceholder childChunk
              sourcePath p0 asset oldSource) as (p' & Hrun & Hnew & Ha & Hh' & Hf' & _).
  { by rewrite Hc. }
  { done. }
  rewrite Hh, Ho in Hnew, Ha, Hh', Hf'.
  change (substitutePlaceholders makePlaceholder (hashFuncNames (options p)) [] oldSource)
    with oldSource in Hnew, Hh', Hf'.
  fold integrity in Hh', Hf'.
  exists p'. split; [exact Hrun|]. split; [|split].
  - unfold content. rewrite Ha, alist_get_set.
    destruct (decide (sourcePath = sourcePath)); [|done]. exact Hnew.
  - intros i Hid. by rewrite Hh', Hid.
  - intros Hnone. rewrite Hf'.
    rewrite updateAssetIntegrity_lookup, Hf, Hnone. done.
Qed.

End FileByFile.

(** A file that has the marker of chunk 7 in it, handled first after the reset. *)
Lemma processChunkFile_after_reset_witness :
  let text := "load(%%SRI0-CHUNK7%%)" in
  let p := with_hashByChunkId [(IdNum 7, "sha256-AAAA")]
             (newPlugin (demo_compilation [("main.js", HostSource (Some text))] [])
                (demo_options eager) []) in
  exists p',
    processChunkFile demo_computeIntegrity demo_makePlaceholder
      {| id := Some (IdNum 0); files := ["main.js"] |} "main.js"
      (beforeRuntimeRequirements demo_getChunkToManifestMap p) = Ok p'
    ∧ content (assets (compilation p')) "main.js" = Some text
    ∧ hashByChunkId p' = [(IdNum 0, demo_computeIntegrity ["sha256"] text)]
    ∧ assetIntegrity p' !! "main.js" = Some (demo_computeIntegrity ["sha256"] text).
Proof.
  intros text p.
  destruct (processChunkFile_after_reset demo_computeIntegrity demo_makePlaceholder
              demo_getChunkToManifestMap
              {| id := Some (IdNum 0); files := ["main.js"] |} "main.js" p
              (HostSource (Some text)) text eq_refl eq_refl)
    as (p' & Hrun & Hcontent & Htable & Hreg).
  exists p'. split; [exact Hrun|]. split; [exact Hcontent|]. split.
  - exact (Htable (IdNum 0) eq_refl).
  - exact (Hreg eq_refl).
Defined.

(** ** The chunk walk as a whole *)

Lemma forEach_total {A S : Type} (I : S -> Prop) (f : A -> S -> result S) (l : list A) :
  (forall a, a ∈ l -> forall s, I s -> exists s', f a s = Ok s' ∧ I s') ->
  forall s, I s -> exists s', forEach f l s = Ok s' ∧ I s'.
Proof.
  induction l as [|a l IH]; intros Hstep s Hs; simpl.
  - by exists s.
  - destruct (Hstep a (proj2 (elem_of_cons l a a) (or_introl eq_refl)) s Hs)
      as (s1 & -> & Hs1).
    simpl. apply IH; [|done].
    intros a' Ha'. apply Hstep, elem_of_cons. by right.
Qed.

Lemma forEach_throws {A S : Type} (U : S -> Prop) (f : A -> S -> result S)
    (x : A) (l : list A) :
  (forall a s s', f a s = Ok s' -> U s -> U s') ->
  (forall s, U s -> exists e, f x s = Throw e) ->
  x ∈ l ->
  forall s, U s -> exists e, forEach f l s = Throw e.
Proof.
  intros Hkeep Hx. induction l as [|a l IH]; intros Hin s Hs.
  - by apply elem_of_nil in Hin.
  - simpl. destruct (f a s) as [s1|e] eqn:Hf; simpl; [|by exists e].
    apply elem_of_cons in Hin as [->|Hin].
    + destruct (Hx s Hs) as [e He]. congruence.
    + apply IH; [done|]. by apply (Hkeep a s).
Qed.

Lemma alist_get_keys {V : Type} (k : string) (l : list (string * V)) :
  k ∈ map fst l -> exists v, alist_get k l = Some v ∧ (k, v) ∈ l.
Proof.
  induction l as [|[k' v'] l IH]; simpl; intros Hin.
  - by apply elem_of_nil in Hin.
  - destruct (decide (k = k')) as [->|Hne].
    + exists v'. split; [done|]. apply elem_of_cons. by left.
    + apply elem_of_cons in Hin as [Hk|Hin]; [done|].
      destruct (IH Hin) as (v & Hv & Hl). exists v. split; [done|].
      apply elem_of_cons. by right.
Qed.

Lemma alist_set_keys {V : Type} (k : string) (v : V) (l : list (string * V)) :
  k ∈ map fst l -> map fst (alist_set k v l) = map fst l.
Proof.
  induction l as [|[k' v'] l IH]; simpl; intros Hin.
  - by apply elem_of_nil in Hin.
  - destruct (decide (k = k')) as [->|Hne]; simpl; [done|].
    apply elem_of_cons in Hin as [Hk|Hin]; [done|]. by rewrite IH.
Qed.

Lemma allReadable_set (k : string) (a : Source) (l : list (string * Source)) :
  allReadable l = true -> readable a = true -> allReadable (alist_set k a l) = true.
Proof.
  unfold allReadable. intros Hl Ha. induction l as [|[k' a'] l IH]; simpl in *.
  - by rewrite Ha.
  - apply andb_true_iff in Hl as [Ha' Hl].
    destruct (decide (k = k')); simpl.
    + by rewrite Ha, Hl.
    + by rewrite Ha', IH.
Qed.

Lemma allReadable_elem (k : string) (a : Source) (l : list (string * Source)) :
  allReadable l = true -> (k, a) ∈ l -> exists src, source a = Some src.
Proof.
  unfold allReadable. rewrite forallb_forall. intros Hl Hin.
  apply list_elem_of_In in Hin. specialize (Hl _ Hin). simpl in Hl.
  unfold readable in Hl. destruct (source a) as [src|]; [by exists src | done].
Qed.

Section WholeWalk.

Variable computeIntegrity : list string -> string -> string.
Variable makePlaceholder : list string -> ChunkId -> string.
Variable findChunks : Chunk -> list Chunk.

Lemma processChunkFile_healthy (p0 : Plugin) childChunk sourcePath q :
  sourcePath ∈ map fst (assets (compilation p0)) ∨ inheritedName sourcePath = false ->
  healthy p0 q ->
  exists q', processChunkFile computeIntegrity makePlaceholder childChunk sourcePath q = Ok q'
             ∧ healthy p0 q'.
Proof.
  intros Hname (Hall & Hkeys & Ho).
  destruct (alist_get sourcePath (assets (compilation q))) as [asset|] eqn:Hget.
  - assert (Hin : sourcePath ∈ map fst (assets (compilation q)))
      by (by eapply alist_get_elem).
    destruct (alist_get_keys _ _ Hin) as (asset' & Hget' & Hel).
    rewrite Hget in Hget'. injection Hget' as <-.
    destruct (allReadable_elem _ _ _ Hall Hel) as [oldSource Hsrc].
    destruct (processChunkFile_present computeIntegrity makePlaceholder childChunk
                sourcePath q asset oldSource Hget Hsrc)
      as (q' & Hrun & Hnew & Ha & _ & _ & _ & Ho' & _).
    exists q'. split; [done|]. split; [|split].
    + rewrite Ha. apply allReadable_set; [done|]. unfold readable. by rewrite Hnew.
    + rewrite Ha, alist_set_keys; done.
    + congruence.
  - destruct Hname as [Hkey | Hname].
    { rewrite <- Hkeys in Hkey. destruct (alist_get_keys _ _ Hkey) as (a & Ha & _).
      congruence. }
    destruct (processChunkFile_absent computeIntegrity makePlaceholder childChunk
                sourcePath q Hget Hname) as (q' & Hrun & Ha & _ & Ho' & _).
    exists q'. split; [done|]. split; [|split]; congruence.
Qed.

Lemma chunkWalk_healthy (p : Plugin) :
  allReadable (assets (compilation p)) = true ->
  (forall c f, c ∈ walkedChunks findChunks p -> f ∈ chunkFiles c ->
     f ∈ map fst (assets (compilation p)) ∨ inheritedName f = false) ->
  exists p', chunkWalk computeIntegrity makePlaceholder findChunks p = Ok p'
             ∧ healthy p p'.
Proof.
  intros Hall Hnames. assert (H0 : healthy p p) by (by split).
  assert (Hchunk : forall c, c ∈ walkedChunks findChunks p -> forall q, healthy p q ->
            exists q', processChunkAssets computeIntegrity makePlaceholder c q = Ok q'
                       ∧ healthy p q').
  { intros c Hc q Hq. unfold processChunkAssets.
    apply (forEach_total (healthy p)); [|done].
    intros f Hf s Hs. apply processChunkFile_healthy; [|done]. by apply (Hnames c). }
  unfold walkedChunks in Hchunk. unfold chunkWalk.
  destruct (hashLoading (options p)).
  - apply (forEach_total (healthy p)); [|done].
    intros chunk Hchunk' s Hs. unfold processChunk.
    apply (forEach_total (healthy p)); [|done].
    intros c Hc. apply Hchunk. apply list_elem_of_In, in_flat_map.
    exists chunk. split; by apply list_elem_of_In.
  - apply (forEach_total (healthy p)); [|done].
    intros scc Hscc s Hs.
    apply (forEach_total (healthy p)); [|done].
    intros c Hc. apply Hchunk. apply list_elem_of_In, in_flat_map.
    exists scc. split; by apply list_elem_of_In.
Qed.

(** X7. When the source of every asset of the compilation can be read and
    every file of every chunk the walk reaches is an asset key or at least
    no member name of [Object.prototype], [processAssets] does not throw,
    in either mode; it keeps the asset table's keys and their order, leaves
    every asset readable, and ends with a digest recorded for every asset
    key. *)
Theorem processAssets_total (p : Plugin) :
  allReadable (assets (compilation p)) = true ->
  (forall c f, c ∈ walkedChunks findChunks p -> f ∈ chunkFiles c ->
     f ∈ map fst (assets (compilation p)) ∨ inheritedName f = false) ->
  exists p',
    processAssets computeIntegrity makePlaceholder findChunks p = Ok p'
    ∧ map fst (assets (compilation p')) = map fst (assets (compilation p))
    ∧ allReadable (assets (compilation p')) = true
    ∧ forall k, k ∈ map fst (assets (compilation p)) ->
        is_Some (assetIntegrity p' !! k).
Proof.
  intros Hall Hnames.
  destruct (chunkWalk_healthy p Hall Hnames) as (p1 & Hwalk & Hall1 & Hkeys & Ho).
  unfold processAssets. rewrite Hwalk. simpl.
  eexists. split; [reflexivity|].
  unfold addMissingIntegrityHashes.
  pose proof (addMissing_fold computeIntegrity (assets (compilation p1))
                (map fst (assets (compilation p1))) p1) as Hfold.
  simpl in Hfold.
  destruct (Hfold "") as [(Hc & _) _]. rewrite Hc.
  split; [done|]. split; [done|].
  intros k Hk. rewrite <- Hkeys in Hk.
  destruct (Hfold k) as [_ ->].
  destruct (assetIntegrity p1 !! k); [eauto|].
  rewrite bool_decide_eq_true_2 by done.
  destruct (alist_get_keys _ _ Hk) as (a & Hget & Hel).
  destruct (allReadable_elem _ _ _ Hall1 Hel) as [src Hsrc].
  rewrite Hget. simpl. rewrite Hsrc. simpl. eauto.
Qed.

End WholeWalk.

(** Two chunks that load each other, all assets readable. *)
Lemma processAssets_total_witness :
  let p := newPlugin
             (demo_compilation
                [("a.js", HostSource (Some "a:%%SRI0-CHUNKb%%"));
                 ("b.js", HostSource (Some "b:%%SRI0-CHUNKa%%"));
                 ("logo.svg", HostSource (Some "<svg/>"))]
                [demo_chunkA; demo_chunkB])
             (demo_options eager) [] in
  exists p',
    processAssets demo_computeIntegrity demo_makePlaceholder demo_cycle_findChunks p = Ok p'
    ∧ map fst (assets (compilation p')) = ["a.js"; "b.js"; "logo.svg"]
    ∧ is_Some (assetIntegrity p' !! "logo.svg").
Proof.
  intros p.
  destruct (processAssets_total demo_computeIntegrity demo_makePlaceholder
              demo_cycle_findChunks p eq_refl) as (p' & Hrun & Hkeys & _ & Hall).
  - intros c f Hc Hf. right.
    apply list_elem_of_In in Hc. unfold walkedChunks in Hc. simpl in Hc.
    destruct Hc as [<-|[<-|[<-|[<-|[]]]]];
      apply list_elem_of_In in Hf; simpl in Hf; destruct Hf as [<-|[]];
      vm_compute; reflexivity.
  - exists p'. split; [exact Hrun|]. split; [exact Hkeys|].
    apply Hall. apply list_elem_of_In. simpl. tauto.
Defined.

Section Irregularities.

Variable computeIntegrity : list string -> string -> string.
Variable makePlaceholder : list string -> ChunkId -> string.
Variable findChunks : Chunk -> list Chunk.

Lemma forEach_missing (childChunk : Chunk) (fs : list string) : forall q,
  (forall f, f ∈ fs -> alist_get f (assets (compilation q)) = None) ->
  (forall f, f ∈ fs -> inheritedName f = false) ->
  exists q',
    forEach (processChunkFile computeIntegrity makePlaceholder childChunk) fs q = Ok q'
    ∧ same_core q q' ∧ compilation q' = compilation q.
Proof.
  induction fs as [|f fs IH]; intros q Hmiss Hplain; simpl.
  - exists q. split; [done|]. split; [apply same_core_refl | done].
  - assert (Hf : alist_get f (assets (compilation q)) = None)
      by (apply Hmiss, elem_of_cons; by left).
    assert (Hn : inheritedName f = false) by (apply Hplain, elem_of_cons; by left).
    unfold processChunkFile at 1. rewrite Hf, Hn. simpl.
    set (q1 := warnOnce (noAssetWarning f (assets (compilation q))) q).
    pose proof (warnOnce_compilation (noAssetWarning f (assets (compilation q))) q) as Hc1.
    pose proof (warnOnce_core (noAssetWarning f (assets (compilation q))) q) as Hs1.
    fold q1 in Hc1, Hs1.
    destruct (IH q1) as (q' & Hrun & Hs & Hc).
    { intros g Hg. rewrite Hc1. apply Hmiss, elem_of_cons. by right. }
    { intros g Hg. apply Hplain, elem_of_cons. by right. }
    exists q'. split; [done|]. split; [by eapply same_core_trans | congruence].
Qed.

Lemma forEach_missing_inherited (childChunk : Chunk) (fs : list string) : forall q,
  (forall f, f ∈ fs -> alist_get f (assets (compilation q)) = None) ->
  (exists f, f ∈ fs ∧ inheritedName f = true) ->
  forEach (processChunkFile computeIntegrity makePlaceholder childChunk) fs q
  = Throw TypeError.
Proof.
  induction fs as [|f fs IH]; intros q Hmiss (g & Hg & Hname); simpl.
  - by apply elem_of_nil in Hg.
  - assert (Hf : alist_get f (assets (compilation q)) = None)
      by (apply Hmiss, elem_of_cons; by left).
    unfold processChunkFile at 1. rewrite Hf.
    destruct (inheritedName f) eqn:Hn; simpl; [done|].
    apply IH.
    + intros h Hh. rewrite warnOnce_compilation. apply Hmiss, elem_of_cons. by right.
    + apply elem_of_cons in Hg as [->|Hg]; [congruence|]. by exists g.
Qed.

(** X8. A chunk none of whose files is an own key of the asset table (for
    a chunk without files: no asset named after its id).  When none of the
    file names is a member name of [Object.prototype] the chunk is passed
    over: [processChunkAssets] does not throw and leaves the assets, the
    asset infos, the registry and the hash table as they are.  When one of
    them is such a name, the inherited member passes the test
    [if (assets[sourcePath])] and [processChunkAssets] throws a type
    error. *)
Theorem processChunkAssets_missing (childChunk : Chunk) (p : Plugin) :
  (forall f, f ∈ chunkFiles childChunk -> alist_get f (assets (compilation p)) = None) ->
  ((forall f, f ∈ chunkFiles childChunk -> inheritedName f = false) ->
   exists p',
     processChunkAssets computeIntegrity makePlaceholder childChunk p = Ok p'
     ∧ compilation p' = compilation p
     ∧ assetIntegrity p' = assetIntegrity p
     ∧ inverseAssetIntegrity p' = inverseAssetIntegrity p
     ∧ hashByChunkId p' = hashByChunkId p)
  ∧ ((exists f, f ∈ chunkFiles childChunk ∧ inheritedName f = true) ->
     processChunkAssets computeIntegrity makePlaceholder childChunk p = Throw TypeError).
Proof.
  intros Hmiss. unfold processChunkAssets. split.
  - intros Hplain.
    destruct (forEach_missing childChunk (chunkFiles childChunk) p Hmiss Hplain)
      as (p' & Hrun & (_ & _ & _ & Hf & Hi & _ & Hh) & Hc).
    by exists p'.
  - by apply forEach_missing_inherited.
Qed.

Lemma processChunkFile_unreadableAt (f : string) childChunk sourcePath q q' :
  processChunkFile computeIntegrity makePlaceholder childChunk sourcePath q = Ok q' ->
  unreadableAt f q -> unreadableAt f q'.
Proof.
  intros Hrun (a & Hget & Hsrc).
  destruct (alist_get sourcePath (assets (compilation q))) as [asset|] eqn:Hg.
  - destruct (source asset) as [oldSource|] eqn:Hs.
    + destruct (processChunkFile_present computeIntegrity makePlaceholder childChunk
                  sourcePath q asset oldSource Hg Hs) as (q1 & Hrun1 & _ & Ha & _).
      rewrite Hrun in Hrun1. injection Hrun1 as <-.
      exists a. split; [|done]. rewrite Ha, alist_get_set.
      destruct (decide (f = sourcePath)) as [->|]; [congruence | done].
    + by rewrite (processChunkFile_unreadable computeIntegrity makePlaceholder
                    childChunk sourcePath q asset) in Hrun.
  - destruct (inheritedName sourcePath) eqn:Hname;
      [by rewrite (processChunkFile_inherited computeIntegrity makePlaceholder
                     childChunk sourcePath q Hg Hname) in Hrun|].
    destruct (processChunkFile_absent computeIntegrity makePlaceholder childChunk
                sourcePath q Hg Hname) as (q1 & Hrun1 & Ha & _).
    rewrite Hrun in Hrun1. injection Hrun1 as <-.
    exists a. by rewrite Ha.
Qed.

Lemma processChunkAssets_unreadableAt (f : string) childChunk q q' :
  processChunkAssets computeIntegrity makePlaceholder childChunk q = Ok q' ->
  unreadableAt f q -> unreadableAt f q'.
Proof.
  unfold processChunkAssets. apply (forEach_invariant (unreadableAt f)).
  intros g s s'. apply processChunkFile_unreadableAt.
Qed.

Lemma processChunkAssets_throws (f : string) childChunk q :
  f ∈ chunkFiles childChunk -> unreadableAt f q ->
  exists e, processChunkAssets computeIntegrity makePlaceholder childChunk q = Throw e.
Proof.
  intros Hin Hq. unfold processChunkAssets.
  apply (forEach_throws (unreadableAt f) _ f); try done.
  - intros g s s'. apply processChunkFile_unreadableAt.
  - intros s (a & Hget & Hsrc). exists SourceError.
    by apply (processChunkFile_unreadable computeIntegrity makePlaceholder childChunk f s a).
Qed.

(** X9. [processAssets] has no guard around [source()]: when a chunk that
    the walk reaches (a member of a sorted component in lazy mode, a chunk
    found from a chunk of the compilation in eager mode) has a file whose
    asset is there and whose [source()] throws, [processAssets] throws;
    only [addMissingIntegrityHashes] skips such an asset. *)
Theorem processAssets_unreadable (p : Plugin) (childChunk : Chunk) (f : string)
    (asset : Source) :
  match hashLoading (options p) with
  | lazy => exists scc, scc ∈ sortedSccChunks p ∧ childChunk ∈ nodes scc
  | eager => exists chunk, chunk ∈ chunks (compilation p)
                           ∧ childChunk ∈ findChunks chunk
  end ->
  f ∈ chunkFiles childChunk ->
  alist_get f (assets (compilation p)) = Some asset ->
  source asset = None ->
  (exists e, processAssets computeIntegrity makePlaceholder findChunks p = Throw e)
  ∧ assetIntegrity (addMissingIntegrityHashes computeIntegrity (assets (compilation p)) p) !! f
    = assetIntegrity p !! f.
Proof.
  intros Hreach Hin Hget Hsrc. split.
  - assert (Hp : unreadableAt f p) by (by exists asset).
    assert (Hwalk : exists e,
              chunkWalk computeIntegrity makePlaceholder findChunks p = Throw e).
    { unfold chunkWalk. destruct (hashLoading (options p)).
      - destruct Hreach as (chunk & Hchunk & Hchild).
        apply (forEach_throws (unreadableAt f) _ chunk); try done.
        + intros c s s'. unfold processChunk.
          apply (forEach_invariant (unreadableAt f)).
          intros c' t t'. apply processChunkAssets_unreadableAt.
        + intros s Hs. unfold processChunk.
          apply (forEach_throws (unreadableAt f) _ childChunk); try done.
          * intros c' t t'. apply processChunkAssets_unreadableAt.
          * intros t Ht. by apply (processChunkAssets_throws f).
          * apply list_elem_of_In, in_rev. rewrite rev_involutive.
            by apply list_elem_of_In.
      - destruct Hreach as (scc & Hscc & Hchild).
        apply (forEach_throws (unreadableAt f) _ scc); try done.
        + intros c s s'. apply (forEach_invariant (unreadableAt f)).
          intros c' t t'. apply processChunkAssets_unreadableAt.
        + intros s Hs.
          apply (forEach_throws (unreadableAt f) _ childChunk); try done.
          * intros c' t t'. apply processChunkAssets_unreadableAt.
          * intros t Ht. by apply (processChunkAssets_throws f). }
    destruct Hwalk as [e He]. exists e. unfold processAssets. by rewrite He.
  - unfold addMissingIntegrityHashes.
    destruct (addMissing_fold computeIntegrity (assets (compilation p))
                (map fst (assets (compilation p))) p f) as [_ ->].
    rewrite Hget. simpl. rewrite Hsrc. simpl.
    destruct (assetIntegrity p !! f); [done|]. by case_bool_decide.
Qed.

End Irregularities.

(** A chunk without files whose id names no asset, and a chunk whose file
    is called [toString]. *)
Lemma processChunkAssets_missing_witness :
  let p := newPlugin (demo_compilation [("main.js", HostSource (Some "main"))] [])
             (demo_options eager) [] in
  (exists p',
     processChunkAssets demo_computeIntegrity demo_makePlaceholder
       {| id := Some (IdNum 5); files := [] |} p = Ok p'
     ∧ compilation p' = compilation p
     ∧ assetIntegrity p' = assetIntegrity p
     ∧ hashByChunkId p' = hashByChunkId p)
  ∧ processChunkAssets demo_computeIntegrity demo_makePlaceholder
      {| id := Some (IdNum 6); files := ["toString"] |} p = Throw TypeError.
Proof.
  intros p. split.
  - destruct (processChunkAssets_missing demo_computeIntegrity demo_makePlaceholder
                {| id := Some (IdNum 5); files := [] |} p) as [Hplain _].
    + intros f Hf. vm_compute in Hf. apply list_elem_of_singleton in Hf as ->. reflexivity.
    + destruct Hplain as (p' & Hrun & Hc & Hf & _ & Hh).
      * intros f Hf. vm_compute in Hf. apply list_elem_of_singleton in Hf as ->.
        vm_compute. reflexivity.
      * by exists p'.
  - destruct (processChunkAssets_missing demo_computeIntegrity demo_makePlaceholder
                {| id := Some (IdNum 6); files := ["toString"] |} p) as [_ Hthrow].
    + intros f Hf. apply list_elem_of_singleton in Hf as ->. reflexivity.
    + apply Hthrow. exists "toString". split; [apply list_elem_of_singleton; reflexivity|].
      vm_compute. reflexivity.
Defined.

(** A lazy build whose only chunk has an asset that cannot be read. *)
Lemma processAssets_unreadable_witness :
  let gone := {| id := Some (IdNum 1); files := ["gone.js"] |} in
  let p := beforeRuntimeRequirements demo_getChunkToManifestMap
             (newPlugin (demo_compilation [("gone.js", HostSource None)] [gone])
                (demo_options lazy) []) in
  (exists e, processAssets demo_computeIntegrity demo_makePlaceholder (fun c => [c]) p
             = Throw e)
  ∧ assetIntegrity
      (addMissingIntegrityHashes demo_computeIntegrity (assets (compilation p)) p)
      !! "gone.js" = None.
Proof.
  intros gone p.
  destruct (processAssets_unreadable demo_computeIntegrity demo_makePlaceholder
              (fun c => [c]) p gone "gone.js" (HostSource None)) as [Hthrow Hskip].
  - exists {| nodes := [gone] |}. split; apply list_elem_of_singleton; reflexivity.
  - apply list_elem_of_singleton. reflexivity.
  - reflexivity.
  - reflexivity.
  - split; [exact Hthrow | exact Hskip].
Defined.

(** ** The registry invariant under the methods of the class *)

Lemma inverse_backed_ext (p q : Plugin) :
  assetIntegrity q = assetIntegrity p ->
  inverseAssetIntegrity q = inverseAssetIntegrity p ->
  inverse_backed p -> inverse_backed q.
Proof. intros Hf Hi Hp d k. rewrite Hf, Hi. apply Hp. Qed.

Section MethodsKeepInvariant.

Variable computeIntegrity : list string -> string -> string.
Variable makePlaceholder : list string -> ChunkId -> string.
Variable findChunks : Chunk -> list Chunk.
Variable normalizePath : string -> string.
Variable getTagSrc : HtmlTagObject -> option string.
Variable getChunkToManifestMap :
  list Chunk -> list StronglyConnectedComponent * list (Chunk * list Chunk).
Variable relative : string -> string -> string.
Variable join : string -> string -> string.
Variable readFileSync : string -> option string.

Lemma addMissing_inverse_backed (assets : list (string * Source)) (keys : list string) :
  forall p,
    inverse_backed p ->
    inverse_backed
      (fold_left
         (fun p assetKey =>
            match alist_get assetKey assets ≫= source with
            | None => p
            | Some src =>
                updateAssetIntegrity assetKey
                  (computeIntegrity (hashFuncNames (options p)) src) p
            end) keys p).
Proof.
  induction keys as [|a keys IH]; intros p Hp; simpl; [done|].
  apply IH. destruct (alist_get a assets ≫= source); [|done].
  by apply updateAssetIntegrity_inverse_backed.
Qed.

Lemma processChunkFile_inverse_backed childChunk sourcePath q q' :
  processChunkFile computeIntegrity makePlaceholder childChunk sourcePath q = Ok q' ->
  inverse_backed q -> inverse_backed q'.
Proof.
  intros Hrun Hq.
  destruct (alist_get sourcePath (assets (compilation q))) as [asset|] eqn:Hg.
  - destruct (source asset) as [oldSource|] eqn:Hs.
    + destruct (processChunkFile_present computeIntegrity makePlaceholder childChunk
                  sourcePath q asset oldSource Hg Hs)
        as (q1 & Hrun1 & _ & _ & _ & Hf & Hi & _).
      rewrite Hrun in Hrun1. injection Hrun1 as <-.
      eapply (inverse_backed_ext _ _ Hf Hi).
      by apply updateAssetIntegrity_inverse_backed.
    + by rewrite (processChunkFile_unreadable computeIntegrity makePlaceholder
                    childChunk sourcePath q asset) in Hrun.
  - destruct (inheritedName sourcePath) eqn:Hname;
      [by rewrite (processChunkFile_inherited computeIntegrity makePlaceholder
                     childChunk sourcePath q Hg Hname) in Hrun|].
    destruct (processChunkFile_absent computeIntegrity makePlaceholder childChunk
                sourcePath q Hg Hname) as (q1 & Hrun1 & _ & _ & _ & Hf & Hi & _).
    rewrite Hrun in Hrun1. injection Hrun1 as <-.
    by apply (inverse_backed_ext q).
Qed.

Lemma chunkWalk_inverse_backed p p' :
  chunkWalk computeIntegrity makePlaceholder findChunks p = Ok p' ->
  inverse_backed p -> inverse_backed p'.
Proof.
  assert (Hchunk : forall c q q',
            processChunkAssets computeIntegrity makePlaceholder c q = Ok q' ->
            inverse_backed q -> inverse_backed q').
  { intros c. unfold processChunkAssets. apply (forEach_invariant inverse_backed).
    intros f s s'. apply processChunkFile_inverse_backed. }
  unfold chunkWalk. destruct (hashLoading (options p)).
  - apply (forEach_invariant inverse_backed). intros chunk s s'. unfold processChunk.
    apply (forEach_invariant inverse_backed). exact Hchunk.
  - apply (forEach_invariant inverse_backed). intros scc s s'.
    apply (forEach_invariant inverse_backed). exact Hchunk.
Qed.

(** X10. Every method of the class that changes the plugin keeps the
    reverse map matched by the forward map: if [reverse[d] = k] implies
    [lookup(k) = d] before [processAssets], [addMissingIntegrityHashes],
    [handleHwpPluginArgs], [handleHwpBodyTags], [beforeRuntimeRequirements]
    or [updateHash], it does so after.  It holds in a new plugin. *)
Theorem methods_keep_inverse_backed (p : Plugin) :
  inverse_backed p ->
  (forall p', processAssets computeIntegrity makePlaceholder findChunks p = Ok p' ->
              inverse_backed p')
  ∧ (forall assets, inverse_backed (addMissingIntegrityHashes computeIntegrity assets p))
  ∧ (forall publicPath js css p' jsIntegrity cssIntegrity,
       handleHwpPluginArgs normalizePath relative publicPath js css p
       = Ok (p', jsIntegrity, cssIntegrity) ->
       inverse_backed p')
  ∧ (forall headTags bodyTags p' tags,
       handleHwpBodyTags computeIntegrity normalizePath getTagSrc relative join
         readFileSync headTags bodyTags p = Ok (p', tags) ->
       inverse_backed p')
  ∧ inverse_backed (beforeRuntimeRequirements getChunkToManifestMap p)
  ∧ (forall input oldHash,
       inverse_backed (fst (updateHash computeIntegrity input oldHash p)))
  ∧ forall c o r, inverse_backed (newPlugin c o r).
Proof.
  intros Hp. split; [|split; [|split; [|split; [|split; [|split]]]]].
  - intros p'. unfold processAssets.
    destruct (chunkWalk computeIntegrity makePlaceholder findChunks p) as [p1|e] eqn:Hwalk;
      simpl; [|done].
    intros [= <-]. apply addMissing_inverse_backed.
    by apply (chunkWalk_inverse_backed p).
  - intros assets. by apply addMissing_inverse_backed.
  - intros publicPath js css p' jsI cssI. unfold handleHwpPluginArgs.
    destruct (mapM _ js) as [a|e]; simpl; [|done].
    destruct (mapM _ css) as [b|e]; simpl; [|done].
    intros [= <- _ _]. by apply (inverse_backed_ext p).
  - intros headTags bodyTags p' tags. unfold handleHwpBodyTags.
    destruct (mapM _ (headTags ++ bodyTags)) as [ts|e]; simpl; [|done].
    intros [= <- _]. by apply addMissing_inverse_backed.
  - destruct (beforeRuntimeRequirements_registry getChunkToManifestMap p)
      as (Hf & Hi & _).
    by apply (inverse_backed_ext p).
  - intros input oldHash. by apply updateHash_inverse_backed.
  - apply newPlugin_inverse_backed.
Qed.

End MethodsKeepInvariant.

(** The build of two chunks that load each other: two assets with different
    texts, and the reverse entry of [b.js] after [processAssets]. *)
Lemma methods_keep_inverse_backed_witness :
  let p := newPlugin
             (demo_compilation
                [("a.js", HostSource (Some "a:%%SRI0-CHUNKb%%"));
                 ("b.js", HostSource (Some "b:%%SRI0-CHUNKa%%"))]
                [demo_chunkA; demo_chunkB])
             (demo_options eager) [] in
  exists p',
    processAssets demo_computeIntegrity demo_makePlaceholder demo_cycle_findChunks p = Ok p'
    ∧ assetIntegrity p' !! "b.js"
      = Some (demo_computeIntegrity ["sha256"] "b:%%SRI0-CHUNKa%%").
Proof.
  intros p.
  assert (Hrun : exists p',
            processAssets demo_computeIntegrity demo_makePlaceholder
              demo_cycle_findChunks p = Ok p'
            ∧ inverseAssetIntegrity p' !! demo_computeIntegrity ["sha256"] "b:%%SRI0-CHUNKa%%"
              = Some "b.js").
  { eexists. split; vm_compute; reflexivity. }
  destruct Hrun as (p' & Hrun & Hrev). exists p'. split; [exact Hrun|].
  destruct (methods_keep_inverse_backed demo_computeIntegrity demo_makePlaceholder
              demo_cycle_findChunks (fun s => s) demo_getTagSrc
              demo_getChunkToManifestMap demo_relative demo_join (fun _ => None) p)
    as (Hassets & _).
  - intros d k H. vm_compute in H. discriminate H.
  - exact (Hassets p' Hrun _ _ Hrev).
Defined.

(** ** Eager mode: the child's digest in the parent's text *)

Section ChildBeforeParent.

Variable computeIntegrity : list string -> string -> string.
Variable makePlaceholder : list string -> ChunkId -> string.
Variable findChunks : Chunk -> list Chunk.

Lemma substitutePlaceholders_nil hashFuncNames oldSource :
  substitutePlaceholders makePlaceholder hashFuncNames [] oldSource = oldSource.
Proof. reflexivity. Qed.

(** X11. [processChunk] on a parent chunk whose only other chunk is a
    child, each with one readable file, starting from an empty hash table:
    the child's file is hashed first and as it is, and the parent's file is
    stored with the first occurrence of the child's marker replaced by the
    child's digest and is hashed after that; the registry gets both digests
    for keys not recorded before. *)
Theorem processChunk_child_then_parent
    (parent child : Chunk) (parentFile childFile : string) (i : ChunkId)
    (parentAsset childAsset : Source) (parentSource childSource : string) (p : Plugin) :
  findChunks parent = [parent; child] ->
  files parent = [parentFile] ->
  files child = [childFile] ->
  parentFile ≠ childFile ->
  id child = Some i ->
  alist_get parentFile (assets (compilation p)) = Some parentAsset ->
  source parentAsset = Some parentSource ->
  alist_get childFile (assets (compilation p)) = Some childAsset ->
  source childAsset = Some childSource ->
  hashByChunkId p = [] ->
  let hashFuncNames := hashFuncNames (options p) in
  let childDigest := computeIntegrity hashFuncNames childSource in
  let newParent :=
    substitutePlaceholders makePlaceholder hashFuncNames [(i, childDigest)] parentSource in
  exists p',
    processChunk computeIntegrity makePlaceholder findChunks parent p = Ok p'
    ∧ content (assets (compilation p')) childFile = Some childSource
    ∧ content (assets (compilation p')) parentFile = Some newParent
    ∧ (forall j, id parent = Some j ->
         alist_get j (hashByChunkId p') = Some (computeIntegrity hashFuncNames newParent))
    ∧ (id parent ≠ Some i -> alist_get i (hashByChunkId p') = Some childDigest)
    ∧ (assetIntegrity p !! childFile = None ->
       assetIntegrity p' !! childFile = Some childDigest)
    ∧ (assetIntegrity p !! parentFile = None ->
       assetIntegrity p' !! parentFile = Some (computeIntegrity hashFuncNames newParent)).
Proof.
  intros Hfind Hpf Hcf Hne Hid Hpget Hpsrc Hcget Hcsrc Hempty
         hashFuncNames childDigest newParent.
  unfold processChunk. rewrite Hfind. simpl.
  unfold processChunkAssets.
  rewrite (chunkFiles_cons child childFile [] Hcf),
          (chunkFiles_cons parent parentFile [] Hpf). simpl.
  destruct (processChunkFile_present computeIntegrity makePlaceholder child childFile p
              childAsset childSource Hcget Hcsrc)
    as (p1 & Hrun1 & Hnew1 & Ha1 & Hh1 & Hf1 & _ & Ho1 & _).
  rewrite Hempty in Hnew1, Ha1, Hh1, Hf1. rewrite Hid in Hh1.
  rewrite substitutePlaceholders_nil in Hnew1, Hh1, Hf1.
  rewrite Hrun1. simpl.
  assert (Hpget1 : alist_get parentFile (assets (compilation p1)) = Some parentAsset).
  { rewrite Ha1, alist_get_set. by destruct (decide (parentFile = childFile)). }
  destruct (processChunkFile_present computeIntegrity makePlaceholder parent parentFile p1
              parentAsset parentSource Hpget1 Hpsrc)
    as (p2 & Hrun2 & Hnew2 & Ha2 & Hh2 & Hf2 & _).
  rewrite Ho1, Hh1 in Hnew2, Ha2, Hh2, Hf2.
  rewrite Hrun2. simpl. exists p2. split; [done|].
  split; [|split; [|split; [|split; [|split]]]].
  - unfold content. rewrite Ha2, alist_get_set.
    destruct (decide (childFile = parentFile)); [congruence|].
    rewrite Ha1, alist_get_set. destruct (decide (childFile = childFile)); [|done].
    exact Hnew1.
  - unfold content. rewrite Ha2, alist_get_set.
    destruct (decide (parentFile = parentFile)); [|done]. exact Hnew2.
  - intros j Hj. rewrite Hh2, Hj, alist_get_set. by destruct (decide (j = j)).
  - intros Hpid. rewrite Hh2. destruct (id parent) as [j|] eqn:Hj.
    + rewrite alist_get_set. destruct (decide (i = j)) as [->|]; [done|].
      rewrite alist_get_set. by destruct (decide (i = i)).
    + rewrite alist_get_set. by destruct (decide (i = i)).
  - intros Hnone. rewrite Hf2. apply updateAssetIntegrity_keeps.
    rewrite Hf1, updateAssetIntegrity_lookup, Hnone. done.
  - intros Hnone. rewrite Hf2, updateAssetIntegrity_lookup.
    rewrite Hf1, updateAssetIntegrity_other, Hnone by done. done.
Qed.

End ChildBeforeParent.

(** The scenario of a parent [main] that loads chunk 7. *)
Lemma processChunk_child_then_parent_witness :
  let seven := {| id := Some (IdNum 7); files := ["7.js"] |} in
  let main := {| id := Some (IdStr "main"); files := ["main.js"] |} in
  let find := fun c => match id c with
                       | Some (IdStr "main") => [main; seven]
                       | _ => [c]
                       end in
  let p := newPlugin
             (demo_compilation
                [("main.js", HostSource (Some "load(%%SRI0-CHUNK7%%)"));
                 ("7.js", HostSource (Some "seven"))]
                [main; seven])
             (demo_options eager) [] in
  exists p',
    processChunk demo_computeIntegrity demo_makePlaceholder find main p = Ok p'
    ∧ content (assets (compilation p')) "main.js"
      = Some ("load(" +:+ demo_computeIntegrity ["sha256"] "seven" +:+ ")")
    ∧ assetIntegrity p' !! "7.js" = Some (demo_computeIntegrity ["sha256"] "seven").
Proof.
  intros seven main find p.
  destruct (processChunk_child_then_parent demo_computeIntegrity demo_makePlaceholder find
              main seven "main.js" "7.js" (IdNum 7)
              (HostSource (Some "load(%%SRI0-CHUNK7%%)")) (HostSource (Some "seven"))
              "load(%%SRI0-CHUNK7%%)" "seven" p)
    as (p' & Hrun & _ & Hparent & _ & _ & Hchild & _);
    try reflexivity; try discriminate.
  exists p'. split; [exact Hrun|]. split; [exact Hparent | exact (Hchild eq_refl)].
Defined.

(** ** Looking up and attaching digests *)

Lemma mapM_Ok {A B : Type} (g : A -> B) (l : list A) :
  mapM (fun x => Ok (g x)) l = Ok (map g l).
Proof. induction l as [|a l IH]; simpl; [done|]. by rewrite IH. Qed.

Lemma mapM_ext {A B : Type} (f g : A -> result B) (l : list A) :
  (forall x, f x = g x) -> mapM f l = mapM g l.
Proof. intros H. induction l as [|a l IH]; simpl; [done|]. by rewrite H, IH. Qed.

Lemma omap_length_le {A B : Type} (f : A -> option B) (l : list A) :
  length (omap f l) <= length l.
Proof.
  induction l as [|a l IH]; [done|].
  change (omap f (a :: l))
    with (match f a with Some y => y :: omap f l | None => omap f l end).
  destruct (f a); simpl; lia.
Qed.

Lemma omap_id_map {A B : Type} (g : A -> option B) (l : list A) :
  omap (fun x => x) (map g l) = omap g l.
Proof.
  induction l as [|a l IH]; [done|].
  change (match g a with
          | Some y => y :: omap (fun x => x) (map g l)
          | None => omap (fun x => x) (map g l)
          end
          = match g a with Some y => y :: omap g l | None => omap g l end).
  by rewrite IH.
Qed.

Section Lookup.

Variable computeIntegrity : list string -> string -> string.
Variable normalizePath : string -> string.
Variable getTagSrc : HtmlTagObject -> option string.
Variable relative : string -> string -> string.
Variable join : string -> string -> string.
Variable readFileSync : string -> option string.

Local Abbreviation checksumFor := (getIntegrityChecksumForAsset normalizePath).
Local Abbreviation tagger :=
  (processTag computeIntegrity normalizePath getTagSrc relative join readFileSync).

Lemma getIntegrityChecksumForAsset_recorded
    (assets : list (string * Source)) (src : string) (p : Plugin) (d : string) :
  checksumFor assets src p = Some d ->
  exists key,
    assetIntegrity p !! key = Some d
    ∧ normalizePath key = normalizePath src
    ∧ (key = src ∨ key ∈ map fst assets).
Proof.
  unfold getIntegrityChecksumForAsset.
  destruct (assetIntegrity p !! src) as [d0|] eqn:Hsrc.
  - intros [= <-]. exists src. auto.
  - destruct (find _ (map fst assets)) as [key|] eqn:Hfind; [|done].
    apply find_some in Hfind as [Hin Heq].
    apply bool_decide_eq_true in Heq.
    destruct (truthy key); [|done]. intros Hd.
    exists key. split; [done|]. split; [done|]. right. by apply list_elem_of_In.
Qed.

(** X12. [getIntegrityChecksumForAsset] only hands out what is recorded:
    a digest it returns is the registry entry of [src] itself or of an
    asset key of the table with the same normalized path; the entry of
    [src] itself takes precedence; and with nothing recorded under [src]
    and no asset key of that normalized path it returns nothing. *)
Theorem getIntegrityChecksumForAsset_sound
    (assets : list (string * Source)) (src : string) (p : Plugin) :
  (forall d, checksumFor assets src p = Some d ->
     exists key,
       assetIntegrity p !! key = Some d
       ∧ normalizePath key = normalizePath src
       ∧ (key = src ∨ key ∈ map fst assets))
  ∧ (forall d, assetIntegrity p !! src = Some d -> checksumFor assets src p = Some d)
  ∧ (assetIntegrity p !! src = None ->
     (forall key, key ∈ map fst assets -> normalizePath key ≠ normalizePath src) ->
     checksumFor assets src p = None).
Proof.
  split; [|split]; [apply getIntegrityChecksumForAsset_recorded | |];
    unfold getIntegrityChecksumForAsset.
  - intros d Hd. by rewrite Hd.
  - intros Hnone Hkeys. rewrite Hnone.
    destruct (find _ (map fst assets)) as [key|] eqn:Hfind; [|done].
    apply find_some in Hfind as [Hin Heq]. apply bool_decide_eq_true in Heq.
    by destruct (Hkeys key (proj2 (list_elem_of_In _ _) Hin)).
Qed.

(** X13. A tag that has a source and no [integrity] attribute cannot be
    annotated before [handleHwpPluginArgs] has set the public path:
    [processTag] throws on the non-null assertion.  With the public path
    set, when the registry has no non-empty digest for the source and the
    file cannot be read from the output directory, [processTag] throws the
    file-system error. *)
Theorem processTag_throws (p : Plugin) (tag : HtmlTagObject) (tagSrc : string) :
  hasIntegrity tag = false ->
  getTagSrc tag = Some tagSrc ->
  tagSrc ≠ "" ->
  (hwpPublicPath p = None -> tagger p tag = Throw AssertionError)
  ∧ (forall publicPath,
       hwpPublicPath p = Some publicPath ->
       let src := relative publicPath tagSrc in
       (checksumFor (assets (compilation p)) src p = None
        ∨ checksumFor (assets (compilation p)) src p = Some "") ->
       readFileSync (join (outputPath (compilation p)) src) = None ->
       tagger p tag = Throw FsError).
Proof.
  intros Hint Hsrc Hne.
  assert (Ht : truthy tagSrc = true) by (by destruct tagSrc).
  unfold processTag, hwpAssetPath. rewrite Hint, Hsrc, Ht. simpl. split.
  - by intros ->.
  - intros publicPath Hpp Hreg Hfile. rewrite Hpp. simpl.
    destruct Hreg as [-> | ->]; simpl; by rewrite Hfile.
Qed.

(** X14. With the public path set, a tag whose source has no non-empty
    digest in the registry gets the digest of the file read from the output
    directory, under the path [join(outputPath, src)], and the configured
    cross-origin value. *)
Theorem processTag_reads_file (p : Plugin) (tag : HtmlTagObject)
    (attrs : gmap string AttrValue) (tagSrc publicPath bytes : string) :
  attributes tag = Some attrs ->
  attrs !! "integrity" = None ->
  getTagSrc tag = Some tagSrc ->
  tagSrc ≠ "" ->
  hwpPublicPath p = Some publicPath ->
  let src := relative publicPath tagSrc in
  (checksumFor (assets (compilation p)) src p = None
   ∨ checksumFor (assets (compilation p)) src p = Some "") ->
  readFileSync (join (outputPath (compilation p)) src) = Some bytes ->
  tagger p tag
  = Ok {| tagName := tagName tag;
          attributes :=
            Some (<["crossorigin" :=
                      AStr (crossOriginValue (crossOriginLoading (compilation p)))]>
                    (<["integrity" :=
                         AStr (computeIntegrity (hashFuncNames (options p)) bytes)]> attrs));
          voidTag := voidTag tag |}.
Proof.
  intros Hattrs Hnone Hsrc Hne Hpp src Hreg Hfile.
  assert (Ht : truthy tagSrc = true) by (by destruct tagSrc).
  unfold processTag, hasIntegrity, hwpAssetPath.
  rewrite Hattrs, Hnone, Hsrc, Ht, Hpp. simpl. fold src.
  destruct Hreg as [-> | ->]; simpl; by rewrite Hfile.
Qed.

(** X15. [handleHwpPluginArgs] does not throw, whatever the plugin was
    before: it sets the public path and changes nothing else, and
    [jsIntegrity] and [cssIntegrity] are the digests found for the listed
    files, in order.  A file without digest is left out, so the lists can
    be shorter than [js] and [css], and each entry is a digest recorded in
    the registry. *)
Theorem handleHwpPluginArgs_lists (publicPath : string) (js css : list string)
    (p : Plugin) :
  let p' := with_hwpPublicPath (Some publicPath) p in
  let found := fun filePath =>
    checksumFor (assets (compilation p)) (relative publicPath filePath) p in
  handleHwpPluginArgs normalizePath relative publicPath js css p
  = Ok (p', omap found js, omap found css)
  ∧ length (omap found js) <= length js
  ∧ length (omap found css) <= length css
  ∧ (forall d, d ∈ omap found js ++ omap found css ->
       exists key, assetIntegrity p !! key = Some d).
Proof.
  intros p' found. split; [|split; [|split]].
  - unfold handleHwpPluginArgs. fold p'.
    rewrite (mapM_ext _ (fun x => Ok (found x)) js) by done.
    rewrite (mapM_ext _ (fun x => Ok (found x)) css) by done.
    rewrite !mapM_Ok. simpl. by rewrite !omap_id_map.
  - apply omap_length_le.
  - apply omap_length_le.
  - intros d Hd. apply elem_of_app in Hd.
    assert (Hf : exists f, found f = Some d).
    { destruct Hd as [Hd|Hd]; apply list_elem_of_omap in Hd as (f & _ & Hf); eauto. }
    destruct Hf as [f Hf].
    destruct (getIntegrityChecksumForAsset_recorded
                (assets (compilation p)) (relative publicPath f) p d Hf)
      as (key & Hkey & _).
    eauto.
Qed.

Lemma mapM_Forall2 {A B : Type} (R : A -> B -> Prop) (f : A -> result B) (l : list A) :
  (forall x, x ∈ l -> exists y, f x = Ok y ∧ R x y) ->
  exists ys, mapM f l = Ok ys ∧ Forall2 R l ys.
Proof.
  induction l as [|a l IH]; intros H; simpl.
  - exists []. split; [done | constructor].
  - destruct (H a) as (b & -> & Hb); [apply elem_of_cons; by left|].
    destruct IH as (ys & -> & Hys).
    { intros x Hx. apply H, elem_of_cons. by right. }
    simpl. exists (b :: ys). split; [done | by constructor].
Qed.

(** X16. [handleHwpBodyTags] fills the registry before it looks at the
    tags, so a tag whose source is an asset key of the compilation with a
    readable source is served from the registry and nothing is read from
    the output directory: the tag gets the digest recorded for the key, or,
    when none was recorded, the digest of the asset's text.  With the
    public path set and every tag either left alone by [processTag] or of
    this kind, the call does not throw, for any file system. *)
Theorem handleHwpBodyTags_served_from_assets
    (headTags bodyTags : list HtmlTagObject) (p : Plugin) (publicPath : string) :
  hwpPublicPath p = Some publicPath ->
  let hashFuncNames := hashFuncNames (options p) in
  let digestOf := fun key (src : string) =>
    default (computeIntegrity hashFuncNames src) (assetIntegrity p !! key) in
  (forall tag, tag ∈ headTags ++ bodyTags ->
     skipped getTagSrc tag
     ∨ exists attrs tagSrc asset src,
         attributes tag = Some attrs ∧ attrs !! "integrity" = None
         ∧ getTagSrc tag = Some tagSrc ∧ tagSrc ≠ ""
         ∧ alist_get (relative publicPath tagSrc) (assets (compilation p)) = Some asset
         ∧ source asset = Some src
         ∧ digestOf (relative publicPath tagSrc) src ≠ "") ->
  exists tags',
    handleHwpBodyTags computeIntegrity normalizePath getTagSrc relative join readFileSync
      headTags bodyTags p
    = Ok (addMissingIntegrityHashes computeIntegrity (assets (compilation p)) p, tags')
    ∧ Forall2
        (fun tag tag' =>
           (skipped getTagSrc tag ∧ tag' = tag)
           ∨ exists attrs tagSrc asset src,
               attributes tag = Some attrs ∧ getTagSrc tag = Some tagSrc
               ∧ alist_get (relative publicPath tagSrc) (assets (compilation p)) = Some asset
               ∧ source asset = Some src
               ∧ tag' = {| tagName := tagName tag;
                           attributes :=
                             Some (<["crossorigin" :=
                                       AStr (crossOriginValue
                                               (crossOriginLoading (compilation p)))]>
                                     (<["integrity" :=
                                          AStr (digestOf (relative publicPath tagSrc) src)]>
                                        attrs));
                           voidTag := voidTag tag |})
        (headTags ++ bodyTags) tags'.
Proof.
  intros Hpp hashFuncNames digestOf Htags.
  unfold handleHwpBodyTags.
  set (p' := addMissingIntegrityHashes computeIntegrity (assets (compilation p)) p).
  pose proof (fun k => addMissing_fold computeIntegrity (assets (compilation p))
                         (map fst (assets (compilation p))) p k) as Hfold.
  simpl in Hfold. change (fold_left _ _ p) with p' in Hfold.
  destruct (Hfold "") as [(Hc & _ & _ & _ & Hpp') _].
  match goal with
  | |- exists tags', bind (mapM ?f ?l) _ = _ ∧ Forall2 ?R _ _ =>
      destruct (mapM_Forall2 R f l) as (tags' & Hrun & Hall)
  end.
  - intros tag Htag. destruct (Htags tag Htag) as [Hskip | Hserved].
    + exists tag. split; [by apply processTag_skip | by left].
    + destruct Hserved as (attrs & tagSrc & asset & src & Ha & Hi & Hs & Hne & Hget & Hsrc & Hd).
      eexists. split.
      * apply (processTag_annotate computeIntegrity normalizePath getTagSrc relative join
                 readFileSync p' tag attrs tagSrc publicPath
                 (digestOf (relative publicPath tagSrc) src)); try done.
        -- congruence.
        -- destruct (Hfold (relative publicPath tagSrc)) as [_ ->].
           unfold digestOf.
           destruct (assetIntegrity p !! relative publicPath tagSrc); [done|].
           rewrite bool_decide_eq_true_2 by (by eapply alist_get_elem).
           rewrite Hget. simpl. by rewrite Hsrc.
      * right. exists attrs, tagSrc, asset, src. rewrite Hc. done.
  - exists tags'. rewrite Hrun. done.
Qed.

End Lookup.

(** A registry and an asset table with [Main.js], looked up as [main.js]
    under a normalization that lowers a leading [M]. *)
Lemma getIntegrityChecksumForAsset_sound_witness :
  let norm := fun s => match s with
                       | String "M" rest => String "m" rest
                       | _ => s
                       end in
  let assets := [("Main.js", HostSource (Some "main"))] in
  let p := updateAssetIntegrity "Main.js" "sha256-BBBB"
             (newPlugin (demo_compilation assets []) (demo_options eager) []) in
  (exists key, assetIntegrity p !! key = Some "sha256-BBBB" ∧ norm key = norm "main.js")
  ∧ getIntegrityChecksumForAsset norm assets "Main.js" p = Some "sha256-BBBB"
  ∧ getIntegrityChecksumForAsset norm assets "other.js" p = None.
Proof.
  intros norm assets p.
  destruct (getIntegrityChecksumForAsset_sound norm assets "main.js" p) as (Hsound & _).
  destruct (getIntegrityChecksumForAsset_sound norm assets "Main.js" p) as (_ & Hexact & _).
  destruct (getIntegrityChecksumForAsset_sound norm assets "other.js" p) as (_ & _ & Hnone).
  split; [|split].
  - destruct (Hsound "sha256-BBBB") as (key & Hkey & Hnorm & _); [vm_compute; reflexivity|].
    by exists key.
  - apply Hexact. vm_compute. reflexivity.
  - apply Hnone; [vm_compute; reflexivity|].
    intros key Hkey. apply list_elem_of_singleton in Hkey as ->. discriminate.
Defined.

(** A script tag before the public path is known, and one whose file is
    neither recorded nor on disk. *)
Lemma processTag_throws_witness :
  let new := newPlugin (demo_compilation [] []) (demo_options eager) [] in
  let tag := scriptTag [("src", AStr "main.js")] in
  let pt := processTag demo_computeIntegrity (fun s => s) demo_getTagSrc
              demo_relative demo_join (fun _ => None) in
  pt new tag = Throw AssertionError
  ∧ pt (with_hwpPublicPath (Some "") new) tag = Throw FsError.
Proof.
  intros new tag pt.
  destruct (processTag_throws demo_computeIntegrity (fun s => s) demo_getTagSrc
              demo_relative demo_join (fun _ => None) new tag "main.js")
    as [Hassert _]; [reflexivity | reflexivity | discriminate |].
  destruct (processTag_throws demo_computeIntegrity (fun s => s) demo_getTagSrc
              demo_relative demo_join (fun _ => None)
              (with_hwpPublicPath (Some "") new) tag "main.js")
    as [_ Hfs]; [reflexivity | reflexivity | discriminate |].
  split; [apply Hassert; reflexivity|].
  apply (Hfs ""); [reflexivity | left; vm_compute; reflexivity | reflexivity].
Defined.

(** An asset written to the output directory after the plugin's pass. *)
Lemma processTag_reads_file_witness :
  let p := with_hwpPublicPath (Some "")
             (newPlugin (demo_compilation [] []) (demo_options eager) []) in
  let disk := fun path => if String.eqb path "/dist/late.js" then Some "late" else None in
  exists tag',
    processTag demo_computeIntegrity (fun s => s) demo_getTagSrc demo_relative demo_join
      disk p (scriptTag [("src", AStr "late.js")]) = Ok tag'
    ∧ (attributes tag' ≫= fun attrs => attrs !! "integrity")
      = Some (AStr (demo_computeIntegrity ["sha256"] "late")).
Proof.
  intros p disk. eexists. split.
  - apply (processTag_reads_file demo_computeIntegrity (fun s => s) demo_getTagSrc
             demo_relative demo_join disk p (scriptTag [("src", AStr "late.js")])
             (list_to_map [("src", AStr "late.js")]) "late.js" "" "late");
      try reflexivity; try discriminate.
    left. vm_compute. reflexivity.
  - vm_compute. reflexivity.
Defined.

(** Two script files, one of them without digest. *)
Lemma handleHwpPluginArgs_lists_witness :
  let p := updateAssetIntegrity "main.js" "sha256-BBBB"
             (newPlugin (demo_compilation [] []) (demo_options eager) []) in
  handleHwpPluginArgs (fun s => s) demo_relative "" ["unknown.js"; "main.js"] [] p
  = Ok (with_hwpPublicPath (Some "") p, ["sha256-BBBB"], [])
  ∧ exists key, assetIntegrity p !! key = Some "sha256-BBBB".
Proof.
  intros p.
  destruct (handleHwpPluginArgs_lists (fun s => s) demo_relative ""
              ["unknown.js"; "main.js"] [] p) as (Hrun & _ & _ & Hrec).
  split.
  - rewrite Hrun. vm_compute. reflexivity.
  - apply Hrec. vm_compute. apply list_elem_of_singleton. reflexivity.
Defined.

(** A tag for an asset that no chunk produced, one with its own [integrity],
    and a file system on which every read fails. *)
Lemma handleHwpBodyTags_served_from_assets_witness :
  let assets := [("logo.svg", HostSource (Some "<svg/>"))] in
  let p := with_hwpPublicPath (Some "")
             (newPlugin (demo_compilation assets []) (demo_options eager) []) in
  let logo := scriptTag [("src", AStr "logo.svg")] in
  let own := scriptTag [("src", AStr "cdn.js"); ("integrity", AStr "sha512-CCCC")] in
  exists tags',
    handleHwpBodyTags demo_computeIntegrity (fun s => s) demo_getTagSrc demo_relative
      demo_join (fun _ => None) [logo] [own] p
    = Ok (addMissingIntegrityHashes demo_computeIntegrity assets p, tags')
    ∧ length tags' = 2.
Proof.
  intros assets p logo own.
  destruct (handleHwpBodyTags_served_from_assets demo_computeIntegrity (fun s => s)
              demo_getTagSrc demo_relative demo_join (fun _ => None) [logo] [own] p "")
    as (tags' & Hrun & Hall); [reflexivity | |].
  - intros tag Htag. apply elem_of_cons in Htag as [->|Htag].
    + right. exists (list_to_map [("src", AStr "logo.svg")]), "logo.svg",
        (HostSource (Some "<svg/>")), "<svg/>".
      repeat split; first [reflexivity | discriminate | (vm_compute; discriminate)].
    + apply list_elem_of_singleton in Htag as ->. left. left. vm_compute. reflexivity.
  - exists tags'. split; [exact Hrun|].
    apply Forall2_length in Hall. simpl in Hall. lia.
Defined.

(** ** Recorded digests are final *)

Section RecordedIsFinal.

Variable computeIntegrity : list string -> string -> string.
Variable makePlaceholder : list string -> ChunkId -> string.
Variable findChunks : Chunk -> list Chunk.
Variable normalizePath : string -> string.
Variable getTagSrc : HtmlTagObject -> option string.
Variable getChunkToManifestMap :
  list Chunk -> list StronglyConnectedComponent * list (Chunk * list Chunk).
Variable relative : string -> string -> string.
Variable join : string -> string -> string.
Variable readFileSync : string -> option string.

Lemma processChunkFile_keeps (k d : string) childChunk sourcePath q q' :
  processChunkFile computeIntegrity makePlaceholder childChunk sourcePath q = Ok q' ->
  assetIntegrity q !! k = Some d -> assetIntegrity q' !! k = Some d.
Proof.
  intros Hrun Hk.
  destruct (alist_get sourcePath (assets (compilation q))) as [asset|] eqn:Hg.
  - destruct (source asset) as [oldSource|] eqn:Hs.
    + destruct (processChunkFile_present computeIntegrity makePlaceholder childChunk
                  sourcePath q asset oldSource Hg Hs)
        as (q1 & Hrun1 & _ & _ & _ & Hf & _).
      rewrite Hrun in Hrun1. injection Hrun1 as <-.
      rewrite Hf. by apply updateAssetIntegrity_keeps.
    + by rewrite (processChunkFile_unreadable computeIntegrity makePlaceholder
                    childChunk sourcePath q asset) in Hrun.
  - destruct (inheritedName sourcePath) eqn:Hname;
      [by rewrite (processChunkFile_inherited computeIntegrity makePlaceholder
                     childChunk sourcePath q Hg Hname) in Hrun|].
    destruct (processChunkFile_absent computeIntegrity makePlaceholder childChunk
                sourcePath q Hg Hname) as (q1 & Hrun1 & _ & _ & _ & Hf & _).
    rewrite Hrun in Hrun1. injection Hrun1 as <-. by rewrite Hf.
Qed.

Lemma chunkWalk_keeps (k d : string) p p' :
  chunkWalk computeIntegrity makePlaceholder findChunks p = Ok p' ->
  assetIntegrity p !! k = Some d -> assetIntegrity p' !! k = Some d.
Proof.
  set (I := fun q : Plugin => assetIntegrity q !! k = Some d).
  assert (Hchunk : forall c q q',
            processChunkAssets computeIntegrity makePlaceholder c q = Ok q' -> I q -> I q').
  { intros c. unfold processChunkAssets. apply (forEach_invariant I).
    intros f s s'. apply processChunkFile_keeps. }
  unfold chunkWalk. destruct (hashLoading (options p)).
  - apply (forEach_invariant I). intros chunk s s'. unfold processChunk.
    apply (forEach_invariant I). exact Hchunk.
  - apply (forEach_invariant I). intros scc s s'.
    apply (forEach_invariant I). exact Hchunk.
Qed.

Lemma addMissingIntegrityHashes_keeps (k d : string) assets p :
  assetIntegrity p !! k = Some d ->
  assetIntegrity (addMissingIntegrityHashes computeIntegrity assets p) !! k = Some d.
Proof.
  intros Hk. unfold addMissingIntegrityHashes.
  destruct (addMissing_fold computeIntegrity assets (map fst assets) p k) as [_ ->].
  by rewrite Hk.
Qed.

(** X17. A digest, once recorded for an asset key, is changed by
    [updateHash] only: [processAssets], [handleHwpPluginArgs],
    [handleHwpBodyTags] and [beforeRuntimeRequirements] leave every entry
    [lookup(k) = d] that is there before the call as it is, also when the
    walk rewrites the asset's text afterwards. *)
Theorem recorded_digest_is_final (p : Plugin) (k d : string) :
  assetIntegrity p !! k = Some d ->
  (forall p', processAssets computeIntegrity makePlaceholder findChunks p = Ok p' ->
              assetIntegrity p' !! k = Some d)
  ∧ (forall publicPath js css p' jsIntegrity cssIntegrity,
       handleHwpPluginArgs normalizePath relative publicPath js css p
       = Ok (p', jsIntegrity, cssIntegrity) ->
       assetIntegrity p' !! k = Some d)
  ∧ (forall headTags bodyTags p' tags,
       handleHwpBodyTags computeIntegrity normalizePath getTagSrc relative join
         readFileSync headTags bodyTags p = Ok (p', tags) ->
       assetIntegrity p' !! k = Some d)
  ∧ assetIntegrity (beforeRuntimeRequirements getChunkToManifestMap p) !! k = Some d.
Proof.
  intros Hk. split; [|split; [|split]].
  - intros p'. unfold processAssets.
    destruct (chunkWalk computeIntegrity makePlaceholder findChunks p) as [p1|e] eqn:Hwalk;
      simpl; [|done].
    intros [= <-]. apply addMissingIntegrityHashes_keeps.
    by apply (chunkWalk_keeps k d p).
  - intros publicPath js css p' jsI cssI. unfold handleHwpPluginArgs.
    destruct (mapM _ js) as [a|e]; simpl; [|done].
    destruct (mapM _ css) as [b|e]; simpl; [|done].
    by intros [= <- _ _].
  - intros headTags bodyTags p' tags. unfold handleHwpBodyTags.
    destruct (mapM _ (headTags ++ bodyTags)) as [ts|e]; simpl; [|done].
    intros [= <- _]. by apply addMissingIntegrityHashes_keeps.
  - destruct (beforeRuntimeRequirements_registry getChunkToManifestMap p) as (-> & _).
    done.
Qed.

End RecordedIsFinal.

(** A digest recorded for [b.js] by hand, and the eager walk over the two
    chunks that load each other. *)
Lemma recorded_digest_is_final_witness :
  let p := updateAssetIntegrity "b.js" "sha256-BBBB"
             (newPlugin
                (demo_compilation
                   [("a.js", HostSource (Some "a:%%SRI0-CHUNKb%%"));
                    ("b.js", HostSource (Some "b:%%SRI0-CHUNKa%%"))]
                   [demo_chunkA; demo_chunkB])
                (demo_options eager) []) in
  exists p',
    processAssets demo_computeIntegrity demo_makePlaceholder demo_cycle_findChunks p = Ok p'
    ∧ assetIntegrity p' !! "b.js" = Some "sha256-BBBB".
Proof.
  intros p.
  assert (Hrun : exists p',
            processAssets demo_computeIntegrity demo_makePlaceholder
              demo_cycle_findChunks p = Ok p').
  { eexists. vm_compute. reflexivity. }
  destruct Hrun as [p' Hrun]. exists p'. split; [exact Hrun|].
  destruct (recorded_digest_is_final demo_computeIntegrity demo_makePlaceholder
              demo_cycle_findChunks (fun s => s) demo_getTagSrc
              demo_getChunkToManifestMap demo_relative demo_join (fun _ => None)
              p "b.js" "sha256-BBBB") as (Hassets & _).
  - vm_compute. reflexivity.
  - exact (Hassets p' Hrun).
Defined.

(** ** The owners of the recorded digests *)

Lemma updateAssetIntegrity_owner assetKey integrity p d k :
  inverseAssetIntegrity (updateAssetIntegrity assetKey integrity p) !! d = Some k ->
  k = assetKey ∨ inverseAssetIntegrity p !! d = Some k.
Proof.
  unfold updateAssetIntegrity.
  destruct (assetIntegrity p !! assetKey); simpl; [by right|].
  destruct (decide (d = integrity)) as [->|Hne].
  - rewrite lookup_insert_eq. intros [= <-]. by left.
  - rewrite lookup_insert_ne by done. by right.
Qed.

Lemma owners_are_assets_ext (p q : Plugin) :
  inverseAssetIntegrity q = inverseAssetIntegrity p ->
  map fst (assets (compilation q)) = map fst (assets (compilation p)) ->
  owners_are_assets p -> owners_are_assets q.
Proof. intros Hi Ha Hp d k. rewrite Hi, Ha. apply Hp. Qed.

Section OwnersAreAssets.

Variable computeIntegrity : list string -> string -> string.
Variable makePlaceholder : list string -> ChunkId -> string.
Variable findChunks : Chunk -> list Chunk.
Variable normalizePath : string -> string.
Variable getTagSrc : HtmlTagObject -> option string.
Variable getChunkToManifestMap :
  list Chunk -> list StronglyConnectedComponent * list (Chunk * list Chunk).
Variable relative : string -> string -> string.
Variable join : string -> string -> string.
Variable readFileSync : string -> option string.

Lemma addMissing_owners (assets0 : list (string * Source)) (keys : list string) :
  forall p,
    (forall k, k ∈ keys -> k ∈ map fst (assets (compilation p))) ->
    owners_are_assets p ->
    owners_are_assets
      (fold_left
         (fun p assetKey =>
            match alist_get assetKey assets0 ≫= source with
            | None => p
            | Some src =>
                updateAssetIntegrity assetKey
                  (computeIntegrity (hashFuncNames (options p)) src) p
            end) keys p).
Proof.
  induction keys as [|a keys IH]; intros p Hkeys Hp; simpl; [done|].
  destruct (alist_get a assets0 ≫= source) as [src|].
  - destruct (updateAssetIntegrity_frame a
                (computeIntegrity (hashFuncNames (options p)) src) p) as (Hc & _).
    apply IH.
    + intros k Hk. rewrite Hc. apply Hkeys. apply elem_of_cons. by right.
    + intros d k Hd. rewrite Hc.
      apply updateAssetIntegrity_owner in Hd as [-> | Hd].
      * apply Hkeys. apply elem_of_cons. by left.
      * by apply (Hp d).
  - apply IH; [|done]. intros k Hk. apply Hkeys. apply elem_of_cons. by right.
Qed.

Lemma addMissingIntegrityHashes_owners (p : Plugin) :
  owners_are_assets p ->
  owners_are_assets
    (addMissingIntegrityHashes computeIntegrity (assets (compilation p)) p).
Proof. intros Hp. unfold addMissingIntegrityHashes. by apply addMissing_owners. Qed.

Lemma processChunkFile_owners childChunk sourcePath q q' :
  processChunkFile computeIntegrity makePlaceholder childChunk sourcePath q = Ok q' ->
  owners_are_assets q -> owners_are_assets q'.
Proof.
  intros Hrun Hq.
  destruct (alist_get sourcePath (assets (compilation q))) as [asset|] eqn:Hg.
  - destruct (source asset) as [oldSource|] eqn:Hs.
    + destruct (processChunkFile_present computeIntegrity makePlaceholder childChunk
                  sourcePath q asset oldSource Hg Hs)
        as (q1 & Hrun1 & _ & Ha & _ & _ & Hi & _).
      rewrite Hrun in Hrun1. injection Hrun1 as <-.
      pose proof (alist_get_elem _ _ _ Hg) as Hin.
      intros d k Hd. rewrite Ha, (alist_set_keys _ _ _ Hin).
      rewrite Hi in Hd. apply updateAssetIntegrity_owner in Hd as [-> | Hd]; [done|].
      by apply (Hq d).
    + by rewrite (processChunkFile_unreadable computeIntegrity makePlaceholder
                    childChunk sourcePath q asset) in Hrun.
  - destruct (inheritedName sourcePath) eqn:Hname;
      [by rewrite (processChunkFile_inherited computeIntegrity makePlaceholder
                     childChunk sourcePath q Hg Hname) in Hrun|].
    destruct (processChunkFile_absent computeIntegrity makePlaceholder childChunk
                sourcePath q Hg Hname) as (q1 & Hrun1 & Ha & _ & _ & _ & Hi & _).
    rewrite Hrun in Hrun1. injection Hrun1 as <-.
    apply (owners_are_assets_ext q); [done | by rewrite Ha | done].
Qed.

Lemma chunkWalk_owners p p' :
  chunkWalk computeIntegrity makePlaceholder findChunks p = Ok p' ->
  owners_are_assets p -> owners_are_assets p'.
Proof.
  assert (Hchunk : forall c q q',
            processChunkAssets computeIntegrity makePlaceholder c q = Ok q' ->
            owners_are_assets q -> owners_are_assets q').
  { intros c. unfold processChunkAssets. apply (forEach_invariant owners_are_assets).
    intros f s s'. apply processChunkFile_owners. }
  unfold chunkWalk. destruct (hashLoading (options p)).
  - apply (forEach_invariant owners_are_assets). intros chunk s s'. unfold processChunk.
    apply (forEach_invariant owners_are_assets). exact Hchunk.
  - apply (forEach_invariant owners_are_assets). intros scc s s'.
    apply (forEach_invariant owners_are_assets). exact Hchunk.
Qed.

Lemma updateHash_owners input oldHash p :
  owners_are_assets p ->
  owners_are_assets (fst (updateHash computeIntegrity input oldHash p)).
Proof.
  intros Hp. unfold updateHash.
  destruct (inverseAssetIntegrity p !! oldHash) as [assetKey|] eqn:Hold; [|done].
  destruct input as [|input0 [|]]; [done| |done].
  destruct (truthy assetKey); [|done]. simpl.
  intros d k Hd.
  match type of Hd with
  | inverseAssetIntegrity (updateAssetIntegrity ?a ?i ?q) !! _ = _ =>
      destruct (updateAssetIntegrity_frame a i q) as (-> & _)
  end.
  apply updateAssetIntegrity_owner in Hd as [-> | Hd]; simpl.
  - by apply (Hp oldHash).
  - simpl in Hd. apply lookup_delete_Some in Hd as [_ Hd]. by apply (Hp d).
Qed.

(** X18. Every owner in the reverse map is a key of the asset table of the
    compilation, in a new plugin and after [processAssets],
    [handleHwpPluginArgs], [handleHwpBodyTags], [beforeRuntimeRequirements]
    and [updateHash]; so where no asset has the empty name, [updateHash]
    with one buffer returns the new digest for every digest that the
    reverse map knows. *)
Theorem owners_are_asset_keys (p : Plugin) :
  owners_are_assets p ->
  (forall p', processAssets computeIntegrity makePlaceholder findChunks p = Ok p' ->
              owners_are_assets p')
  ∧ (forall publicPath js css p' jsIntegrity cssIntegrity,
       handleHwpPluginArgs normalizePath relative publicPath js css p
       = Ok (p', jsIntegrity, cssIntegrity) ->
       owners_are_assets p')
  ∧ (forall headTags bodyTags p' tags,
       handleHwpBodyTags computeIntegrity normalizePath getTagSrc relative join
         readFileSync headTags bodyTags p = Ok (p', tags) ->
       owners_are_assets p')
  ∧ owners_are_assets (beforeRuntimeRequirements getChunkToManifestMap p)
  ∧ (forall input oldHash,
       owners_are_assets (fst (updateHash computeIntegrity input oldHash p)))
  ∧ (forall c o r, owners_are_assets (newPlugin c o r))
  ∧ ("" ∉ map fst (assets (compilation p)) ->
     forall oldHash input0,
       is_Some (inverseAssetIntegrity p !! oldHash) ->
       snd (updateHash computeIntegrity [input0] oldHash p)
       = Some (computeIntegrity (hashFuncNames (options p)) input0)).
Proof.
  intros Hp. split; [|split; [|split; [|split; [|split; [|split]]]]].
  - intros p'. unfold processAssets.
    destruct (chunkWalk computeIntegrity makePlaceholder findChunks p) as [p1|e] eqn:Hwalk;
      simpl; [|done].
    intros [= <-]. apply addMissingIntegrityHashes_owners.
    by apply (chunkWalk_owners p).
  - intros publicPath js css p' jsI cssI. unfold handleHwpPluginArgs.
    destruct (mapM _ js) as [a|e]; simpl; [|done].
    destruct (mapM _ css) as [b|e]; simpl; [|done].
    intros [= <- _ _]. by apply (owners_are_assets_ext p).
  - intros headTags bodyTags p' tags. unfold handleHwpBodyTags.
    destruct (mapM _ (headTags ++ bodyTags)) as [ts|e]; simpl; [|done].
    intros [= <- _]. by apply addMissingIntegrityHashes_owners.
  - destruct (beforeRuntimeRequirements_registry getChunkToManifestMap p)
      as (_ & Hi & Hc & _).
    apply (owners_are_assets_ext p); [done | by rewrite Hc | done].
  - intros input oldHash. by apply updateHash_owners.
  - intros c o r d k H. simpl in H. by rewrite lookup_empty in H.
  - intros Hempty oldHash input0 [assetKey Hold].
    assert (Hkey : assetKey ≠ "").
    { intros ->. apply Hempty. by apply (Hp oldHash). }
    unfold updateHash. rewrite Hold.
    by destruct assetKey as [|a assetKey].
Qed.

End OwnersAreAssets.

(** The build of two chunks that load each other: after [processAssets]
    the digest recorded for [b.js] is rehashed by [updateHash]. *)
Lemma owners_are_asset_keys_witness :
  let p := newPlugin
             (demo_compilation
                [("a.js", HostSource (Some "a:%%SRI0-CHUNKb%%"));
                 ("b.js", HostSource (Some "b:%%SRI0-CHUNKa%%"))]
                [demo_chunkA; demo_chunkB])
             (demo_options eager) [] in
  exists p',
    processAssets demo_computeIntegrity demo_makePlaceholder demo_cycle_findChunks p = Ok p'
    ∧ snd (updateHash demo_computeIntegrity ["xyz"]
             (demo_computeIntegrity ["sha256"] "b:%%SRI0-CHUNKa%%") p')
      = Some (demo_computeIntegrity ["sha256"] "xyz").
Proof.
  intros p.
  assert (Hrun : exists p',
            processAssets demo_computeIntegrity demo_makePlaceholder
              demo_cycle_findChunks p = Ok p'
            ∧ inverseAssetIntegrity p' !! demo_computeIntegrity ["sha256"] "b:%%SRI0-CHUNKa%%"
              = Some "b.js"
            ∧ map fst (assets (compilation p')) = ["a.js"; "b.js"]
            ∧ hashFuncNames (options p') = ["sha256"]).
  { eexists. split; [|split; [|split]]; vm_compute; reflexivity. }
  destruct Hrun as (p' & Hrun & Hrev & Hkeys & Hnames). exists p'. split; [exact Hrun|].
  destruct (owners_are_asset_keys demo_computeIntegrity demo_makePlaceholder
              demo_cycle_findChunks (fun s => s) demo_getTagSrc
              demo_getChunkToManifestMap demo_relative demo_join (fun _ => None) p)
    as (Hassets & _).
  { intros d k H. vm_compute in H. discriminate H. }
  destruct (owners_are_asset_keys demo_computeIntegrity demo_makePlaceholder
              demo_cycle_findChunks (fun s => s) demo_getTagSrc
              demo_getChunkToManifestMap demo_relative demo_join (fun _ => None) p'
              (Hassets p' Hrun))
    as (_ & _ & _ & _ & _ & _ & Hrehash).
  rewrite <- Hnames at 2. apply Hrehash.
  - rewrite Hkeys. intros H. apply list_elem_of_In in H. simpl in H.
    destruct H as [H | [H | []]]; discriminate H.
  - by rewrite Hrev.
Defined.
